(** * Rate limiters and reveal trigger of the portfolio page script

    A shallow embedding of [professional-script.js]: the two timing
    utilities [debounce] and [throttle], the guarded DOM queries
    [safeQuerySelector] / [safeQuerySelectorAll], and the
    IntersectionObserver set-up of [initScrollAnimations].

    JavaScript evaluation is modelled by a state-and-exception monad; the
    host (timers, DOM queries, intersection observation) is an explicit
    part of the state, and the variables captured by the closures the
    script returns live in that state too. *)

From stdpp Require Import gmap strings list.
From Stdlib Require Import ZArith QArith.
Close Scope Q_scope.

(** ** Completions: normal return or an exception *)

(** What a piece of script can throw: an unbound global identifier, or a
    value thrown by caller-supplied code. *)
Inductive error (E : Type) : Type :=
| ReferenceError (name : string)
| Thrown (e : E).
Arguments ReferenceError {E} name.
Arguments Thrown {E} e.

Inductive completion (E A : Type) : Type :=
| Normal (a : A)
| Abrupt (x : error E).
Arguments Normal {E A} a.
Arguments Abrupt {E A} x.

(** A computation over a store [S] that returns an [A] or throws; the
    store survives an exception, as the heap does in JavaScript. *)
Definition js (E S A : Type) : Type := S -> completion E A * S.

Definition ret {E S A} (a : A) : js E S A := fun s => (Normal a, s).

Definition throw {E S A} (x : error E) : js E S A := fun s => (Abrupt x, s).

Definition bind {E S A B} (m : js E S A) (f : A -> js E S B) : js E S B :=
  fun s =>
    match m s with
    | (Normal a, s') => f a s'
    | (Abrupt x, s') => (Abrupt x, s')
    end.

(** [try { body } catch (error) { handler }] *)
Definition try_catch {E S A} (body : js E S A) (handler : error E -> js E S A)
  : js E S A :=
  fun s =>
    match body s with
    | (Normal a, s') => (Normal a, s')
    | (Abrupt x, s') => handler x s'
    end.

Notation "'let!' x ':=' m 'in' k" := (bind m (fun x => k))
  (at level 10, x name, m at level 100, k at level 200).
Notation "m ';;;' k" := (bind m (fun _ => k))
  (at level 100, k at level 200, right associativity).

Definition is_normal {E A} (r : completion E A) : bool :=
  match r with Normal _ => true | Abrupt _ => false end.

(** ** The host: capabilities and timers *)

(** [has_timers]: [setTimeout] and [clearTimeout] are bound globals.
    [timers_first]: when a timer falls due at the very instant an event is
    delivered, whether the timer callback runs before the event handler. *)
Record host : Type := Host {
  has_timers : bool;
  timers_first : bool;
  has_IntersectionObserver : bool
}.

Section Timers.
Context {C : Type}.

(** A scheduled callback; [C] is the type of (defunctionalised) closures. *)
Record timer : Type := Timer { tid : nat; due : Z; callback : C }.

(** The timer table of the host, in arming order. *)
Record clock : Type := Clock { now : Z; next_id : nat; pending : list timer }.

Definition clock0 : clock := Clock 0 1 [].

(** The host converts the delay of [setTimeout] to a signed 32-bit
    integer: it is taken modulo [2 ^ 32] into [-2 ^ 31 .. 2 ^ 31 - 1]. *)
Definition to_int32 (d : Z) : Z := ((d + 2 ^ 31) mod 2 ^ 32 - 2 ^ 31)%Z.

(** Arming a timer for a delay already converted: a negative delay counts
    as zero. *)
Definition arm (cb : C) (delay : Z) (k : clock) : nat * clock :=
  (next_id k,
   Clock (now k) (S (next_id k))
         (pending k ++ [Timer (next_id k) (now k + Z.max 0 delay) cb])).

(** [clearTimeout(h)]: [undefined] and stale handles are ignored. *)
Definition cancel (h : option nat) (k : clock) : clock :=
  match h with
  | None => k
  | Some i => Clock (now k) (next_id k) (filter (fun t => tid t ≠ i) (pending k))
  end.

(** The timer to run next: least due time, arming order among equals. *)
Fixpoint earliest (l : list timer) : option timer :=
  match l with
  | [] => None
  | t :: l' =>
      match earliest l' with
      | Some u => if (due u <? due t)%Z then Some u else Some t
      | None => Some t
      end
  end.

(** Whether a timer may run while the clock moves up to [bound]
    ([None]: the page stays idle for ever). *)
Definition eligible (first : bool) (bound : option Z) (t : timer) : bool :=
  match bound with
  | None => true
  | Some b => if first then (due t <=? b)%Z else (due t <? b)%Z
  end.

Definition take_due (first : bool) (bound : option Z) (k : clock)
  : option (timer * clock) :=
  match earliest (pending k) with
  | Some t =>
      if eligible first bound t
      then Some (t, Clock (Z.max (now k) (due t)) (next_id k)
                          (filter (fun u => tid u ≠ tid t) (pending k)))
      else None
  | None => None
  end.

(** The clock reads [t]. *)
Definition set_now (t : Z) (k : clock) : clock :=
  Clock t (next_id k) (pending k).
End Timers.
Arguments timer C : clear implicits.
Arguments clock C : clear implicits.

(** ** A page running one rate limiter *)

Section RateLimiter.
Context {Ctx Args E : Type}.

(** One call of the wrapped action, as the action sees it. *)
Record invocation : Type := Invocation {
  inv_time : Z;
  inv_this : option Ctx;
  inv_args : Args
}.

(** One call of the returned callable: receiver and arguments. *)
Record call : Type := Call { call_this : Ctx; call_args : Args }.

(** The caller-supplied action: [None] when it returns, [Some e] when it
    throws [e]. It does not call the wrapper it is wrapped in. *)
Definition action : Type := option Ctx -> Args -> option E.

Section World.
(** [V]: the variable captured by the returned closure;
    [C]: the closures handed to [setTimeout]. *)
Context {V C : Type}.

Record world : Type := World {
  clk : clock C;
  captured : V;
  invoked : list invocation;
  uncaught : list (error E)
}.

Definition world0 (v : V) : world := World clock0 v [] [].

Definition with_clk (k : clock C) (w : world) : world :=
  World k (captured w) (invoked w) (uncaught w).

Variable env : host.

Definition setTimeout (cb : C) (delay : Z) : js E world nat :=
  fun w =>
    if has_timers env
    then let '(h, k) := arm cb (to_int32 delay) (clk w) in
         (Normal h, with_clk k w)
    else (Abrupt (ReferenceError "setTimeout"), w).

Definition clearTimeout (h : option nat) : js E world unit :=
  fun w =>
    if has_timers env
    then (Normal tt, with_clk (cancel h (clk w)) w)
    else (Abrupt (ReferenceError "clearTimeout"), w).

Definition read : js E world V := fun w => (Normal (captured w), w).

Definition write (v : V) : js E world unit :=
  fun w => (Normal tt, World (clk w) v (invoked w) (uncaught w)).

(** Calling the action: the call is recorded, then the action's outcome
    becomes the outcome of the call expression. *)
Definition call_action (func : action) (this : option Ctx) (args : Args)
  : js E world unit :=
  fun w =>
    let w' := World (clk w) (captured w)
                    (invoked w ++ [Invocation (now (clk w)) this args])
                    (uncaught w) in
    match func this args with
    | None => (Normal tt, w')
    | Some e => (Abrupt (Thrown e), w')
    end.

(** The host runs a callback or an event handler to completion; an
    exception that escapes it is reported and the page goes on. *)
Definition host_runs (m : js E world unit) (w : world) : world :=
  match m w with
  | (Normal _, w') => w'
  | (Abrupt x, w') =>
      World (clk w') (captured w') (invoked w') (uncaught w' ++ [x])
  end.

Variable exec : C -> js E world unit.

(** Run the next timer that is due, if any. *)
Definition fire (bound : option Z) (w : world) : option world :=
  match take_due (timers_first env) bound (clk w) with
  | Some (t, k) => Some (host_runs (exec (callback t)) (with_clk k w))
  | None => None
  end.

Fixpoint settle (fuel : nat) (bound : option Z) (w : world) : world :=
  match fuel with
  | O => w
  | S n =>
      match fire bound w with
      | Some w' => settle n bound w'
      | None => w
      end
  end.

(** Let time pass up to [bound], running the timers that fall due. *)
Definition advance (bound : option Z) (w : world) : world :=
  settle (length (pending (clk w))) bound w.

Variable trigger : call -> js E world unit.

(** The returned callable is called at time [t]. *)
Definition deliver (w : world) (tc : Z * call) : world :=
  let w1 := advance (Some tc.1) w in
  host_runs (trigger tc.2) (with_clk (set_now tc.1 (clk w1)) w1).

(** A timed sequence of calls, and nothing after. *)
Definition run (calls : list (Z * call)) (w : world) : world :=
  advance None (foldl deliver w calls).
End World.
Arguments world V C : clear implicits.

(** *** debounce *)

(** The closure [later] of one call, holding that call's [args]. *)
Inductive debounce_closure : Type := Later (args : Args).

(** The captured variable [timeout]: [undefined] or a timer handle. *)
Definition debounce_world : Type := world (option nat) debounce_closure.

Section Debounce.
Variable env : host.
Variable func : action.
Variable wait : Z.

(** [const later = () => { clearTimeout(timeout); func(...args); };] *)
Definition later (args : Args) : js E debounce_world unit :=
  let! timeout := read in
  clearTimeout env timeout ;;;
  call_action func None args.

Definition debounce_exec (c : debounce_closure) : js E debounce_world unit :=
  match c with Later args => later args end.

(** [function executedFunction(...args)] *)
Definition executedFunction (c : call) : js E debounce_world unit :=
  let! timeout := read in
  clearTimeout env timeout ;;;
  let! h := setTimeout env (Later (call_args c)) wait in
  write (Some h).

(** [debounce(func, wait)]: [let timeout;] *)
Definition debounce : debounce_world := world0 None.

Definition debounce_deliver := deliver env debounce_exec executedFunction.
Definition debounce_advance := advance env debounce_exec.
Definition debounce_run (calls : list (Z * call)) : debounce_world :=
  run env debounce_exec executedFunction calls debounce.
End Debounce.

(** *** throttle *)

(** The arrow function [() => inThrottle = false]. *)
Inductive throttle_closure : Type := Release.

(** The captured variable [inThrottle]: [undefined] or a boolean. *)
Definition throttle_world : Type := world (option bool) throttle_closure.

Definition truthy (v : option bool) : bool :=
  match v with Some b => b | None => false end.

Section Throttle.
Variable env : host.
Variable func : action.
Variable limit : Z.

Definition throttle_exec (c : throttle_closure) : js E throttle_world unit :=
  match c with Release => write (Some false) end.

(** The anonymous [function()] that [throttle] returns. *)
Definition throttled (c : call) : js E throttle_world unit :=
  let args := call_args c in
  let context := call_this c in
  let! inThrottle := read in
  if negb (truthy inThrottle) then
    call_action func (Some context) args ;;;
    write (Some true) ;;;
    setTimeout env Release limit ;;;
    ret tt
  else ret tt.

(** [throttle(func, limit)]: [let inThrottle;] *)
Definition throttle : throttle_world := world0 None.

Definition throttle_deliver := deliver env throttle_exec throttled.
Definition throttle_advance := advance env throttle_exec.
Definition throttle_run (calls : list (Z * call)) : throttle_world :=
  run env throttle_exec throttled calls throttle.
End Throttle.
End RateLimiter.
Arguments invocation Ctx Args : clear implicits.
Arguments call Ctx Args : clear implicits.
Arguments action Ctx Args E : clear implicits.
Arguments world Ctx Args E V C : clear implicits.
Arguments debounce_world Ctx Args E : clear implicits.
Arguments throttle_world Ctx Args E : clear implicits.
Arguments debounce {Ctx Args E}.
Arguments throttle {Ctx Args E}.


(** ** The document and the page state *)

(** A DOM element as far as the script touches it: the inline style
    declaration, a JavaScript object used as a map from property names to
    values, and the class list. *)
Record element : Type := Element {
  style : gmap string string;
  classList : list string
}.

(** An entry of an intersection notification. *)
Record entry : Type := Entry {
  target : nat;
  intersectionRatio : Q;
  isIntersecting : bool
}.

(** The options object and the observation targets of an observer. *)
Record observer_state : Type := Observer {
  threshold : Q;
  rootMargin : string;
  targets : list nat
}.

Section Page.
Context {E : Type}.

(** The host's selector engine: a query returns its result or throws
    (an invalid selector, an unbound [document]). Elements are named by
    their position in the document. *)
Record document : Type := Document {
  querySelector : string -> completion E (option nat);
  querySelectorAll : string -> completion E (list nat)
}.

(** [revealed] is instrumentation: it records, in order, every time the
    reveal branch of the notification callback is entered. *)
Record page : Type := Page {
  elements : gmap nat element;
  console : list string;
  observer : option observer_state;
  revealed : list nat;
  page_uncaught : list (error E)
}.

Definition page0 (els : gmap nat element) : page := Page els [] None [] [].

Definition console_warn (msg : string) : js E page unit :=
  fun p => (Normal tt,
            Page (elements p) (console p ++ [msg]) (observer p) (revealed p)
                 (page_uncaught p)).

(** Evaluating a host query: its completion, the page unchanged. *)
Definition host_query {A} (r : completion E A) : js E page A :=
  fun p => (r, p).

Variable doc : document.

Definition safeQuerySelector (selector : string) : js E page (option nat) :=
  try_catch
    (host_query (querySelector doc selector))
    (fun error =>
       console_warn ("Error selecting element: " +:+ selector) ;;;
       ret None).

Definition safeQuerySelectorAll (selector : string) : js E page (list nat) :=
  try_catch
    (host_query (querySelectorAll doc selector))
    (fun error =>
       console_warn ("Error selecting elements: " +:+ selector) ;;;
       ret []).

(** [array.forEach(f)] *)
Fixpoint forEach {A} (l : list A) (f : A -> js E page unit) : js E page unit :=
  match l with
  | [] => ret tt
  | a :: l' => f a ;;; forEach l' f
  end.

(** [el.style[prop] = value] *)
Definition set_style (el : nat) (prop value : string) : js E page unit :=
  fun p => (Normal tt,
            Page (alter (fun e => Element (<[prop := value]> (style e)) (classList e))
                        el (elements p))
                 (console p) (observer p) (revealed p) (page_uncaught p)).

(** [el.classList.add(token)]: a token list holds a token once. *)
Definition classList_add (el : nat) (token : string) : js E page unit :=
  fun p => (Normal tt,
            Page (alter (fun e => Element (style e)
                                    (if decide (token ∈ classList e)
                                     then classList e
                                     else classList e ++ [token]))
                        el (elements p))
                 (console p) (observer p) (revealed p) (page_uncaught p)).

Definition with_observer (o : option observer_state) (p : page) : page :=
  Page (elements p) (console p) o (revealed p) (page_uncaught p).

(** [new IntersectionObserver(callback, options)] *)
Definition new_IntersectionObserver (th : Q) (margin : string) : js E page unit :=
  fun p => (Normal tt, with_observer (Some (Observer th margin [])) p).

(** [observer.observe(el)]: observing a target twice changes nothing. *)
Definition observe (el : nat) : js E page unit :=
  fun p => (Normal tt,
            with_observer
              ((fun o => Observer (threshold o) (rootMargin o)
                           (if decide (el ∈ targets o) then targets o
                            else targets o ++ [el])) <$> observer p) p).

(** [observer.unobserve(el)] *)
Definition unobserve (el : nat) : js E page unit :=
  fun p => (Normal tt,
            with_observer
              ((fun o => Observer (threshold o) (rootMargin o)
                           (filter (fun x => x ≠ el) (targets o))) <$> observer p) p).

(** Entering the reveal branch for [el]. *)
Definition mark_revealed (el : nat) : js E page unit :=
  fun p => (Normal tt,
            Page (elements p) (console p) (observer p) (revealed p ++ [el])
                 (page_uncaught p)).

(** The notification callback, for an arbitrary reveal action followed
    by [observer.unobserve(entry.target)]. *)
Definition observer_callback (onReveal : nat -> js E page unit)
           (entries : list entry) : js E page unit :=
  forEach entries (fun entry =>
    if isIntersecting entry then
      mark_revealed (target entry) ;;;
      onReveal (target entry) ;;;
      unobserve (target entry)
    else ret tt).

(** The reveal action written in [initScrollAnimations]. *)
Definition reveal (el : nat) : js E page unit :=
  set_style el "opacity" "1" ;;;
  set_style el "transform" "translateY(0)" ;;;
  classList_add el "animated".

Definition scroll_callback : list entry -> js E page unit :=
  observer_callback reveal.

Definition animated_selector : string :=
  ".skill-card, .project-card, .contact-card, .about-content, .info-card".

Variable env : host.

(** The arrow function applied to each animated element. *)
Definition conceal_and_observe (el : nat) : js E page unit :=
  set_style el "opacity" "0" ;;;
  set_style el "transform" "translateY(30px)" ;;;
  set_style el "transition" "opacity 0.6s ease, transform 0.6s ease" ;;;
  observe el.

Definition initScrollAnimations : js E page unit :=
  if negb (has_IntersectionObserver env) then
    console_warn "Intersection Observer not supported" ;;;
    ret tt
  else
    new_IntersectionObserver (1 # 10) "0px 0px -50px 0px" ;;;
    let! animatedElements := safeQuerySelectorAll animated_selector in
    forEach animatedElements conceal_and_observe.

(** *** The host side of intersection observation *)

(** One rendering frame, as the host measures it: the visible fraction of
    each element it has something to report for. The host reports on
    observation targets only, one entry per target, in target order, and
    an entry is intersecting when the fraction has reached the
    threshold. *)
Definition frame : Type := nat -> option Q.

Definition take_entries (fr : frame) (o : observer_state) : list entry :=
  omap (fun el => (fun r => Entry el r (Qle_bool (threshold o) r)) <$> fr el)
       (targets o).

(** The host delivers a non-empty batch to the callback and reports an
    exception that escapes it. *)
Definition notify (cb : list entry -> js E page unit) (p : page) (fr : frame)
  : page :=
  match observer p with
  | None => p
  | Some o =>
      match take_entries fr o with
      | [] => p
      | entries =>
          match cb entries p with
          | (Normal _, p') => p'
          | (Abrupt x, p') =>
              Page (elements p') (console p') (observer p') (revealed p')
                   (page_uncaught p' ++ [x])
          end
      end
  end.

(** The page after [initScrollAnimations] and a sequence of frames. *)
Definition scroll_page (p : page) (frames : list frame) : page :=
  foldl (notify scroll_callback) (initScrollAnimations p).2 frames.
End Page.
Arguments document E : clear implicits.
Arguments page E : clear implicits.


(** ** Timed call sequences *)

(** Consecutive instants, starting from [t], are related by [R]. *)
Fixpoint chain (R : Z -> Z -> Prop) (t : Z) (ts : list Z) : Prop :=
  match ts with
  | [] => True
  | t' :: ts' => R t t' /\ chain R t' ts'
  end.

(** The next call comes less than [wait] after the previous one. *)
Definition within (wait : Z) (t t' : Z) : Prop := (t <= t' < t + wait)%Z.

(** The next call comes more than [wait] after the previous one. *)
Definition beyond (wait : Z) (t t' : Z) : Prop := (t + wait < t')%Z.

(** What the action sees when a debounced call made with [c] is honoured
    [wait] after the instant [t] of the call. *)
Definition debounced_invocation {Ctx Args} (wait : Z) (tc : Z * call Ctx Args)
  : invocation Ctx Args :=
  Invocation (tc.1 + wait) None (call_args tc.2).

(** What the action sees when a throttled call is let through. *)
Definition throttled_invocation {Ctx Args} (tc : Z * call Ctx Args)
  : invocation Ctx Args :=
  Invocation tc.1 (Some (call_this tc.2)) (call_args tc.2).

(** A host that has timers. *)
Definition timed_host (first io : bool) : host := Host true first io.

(** A sequence of calls whose consecutive instants are related by [R]. *)
Definition spaced {A} (R : Z -> Z -> Prop) (calls : list (Z * A)) : Prop :=
  match calls with
  | [] => True
  | tc :: rest => chain R tc.1 rest.*1
  end.

(** The timers outstanding are at most the one [timeout] refers to. *)
Definition tracked {Ctx Args E} (w : debounce_world Ctx Args E) : Prop :=
  pending (clk w) = [] \/
  exists tm, pending (clk w) = [tm] /\ captured w = Some (tid tm).

(** The debounced call [tc] is the one waiting to be honoured. *)
Definition armed {Ctx Args E} (wait : Z) (w : debounce_world Ctx Args E)
           (tc : Z * call Ctx Args) : Prop :=
  exists h, clk w = Clock tc.1 (S h) [Timer h (tc.1 + wait) (Later (call_args tc.2))]
            /\ captured w = Some h.

(** No cooldown is running: [inThrottle] is falsy and no timer is set. *)
Definition open {Ctx Args E} (w : throttle_world Ctx Args E) : Prop :=
  truthy (captured w) = false /\ pending (clk w) = [].

(** A cooldown is running and ends at [d]. *)
Definition cooling {Ctx Args E} (w : throttle_world Ctx Args E) (d : Z) : Prop :=
  captured w = Some true /\ exists h, pending (clk w) = [Timer h d Release].

(** [inThrottle] is set; the timer that resets it, if the host could arm
    one, falls due at [d]. *)
Definition closed {Ctx Args E} (w : throttle_world Ctx Args E) (d : Z) : Prop :=
  captured w = Some true /\
  (pending (clk w) = [] \/ exists h, pending (clk w) = [Timer h d Release]).

(** The page state that goes with the end [free_at] of the last cooldown. *)
Definition at_rest {Ctx Args E} (w : throttle_world Ctx Args E)
           (free_at : option Z) : Prop :=
  match free_at with
  | None => open w
  | Some d => cooling w d
  end.

(** The action returns normally when called as [c] calls it. *)
Definition returns {Ctx Args E} (func : action Ctx Args E) (c : call Ctx Args)
  : Prop :=
  func (Some (call_this c)) (call_args c) = None.

(** Whether a call at [t] falls into a cooldown that ends at [d]. *)
Definition suppressed (first : bool) (free_at : option Z) (t : Z) : bool :=
  match free_at with
  | None => false
  | Some d => if first then (t <? d)%Z else (t <=? d)%Z
  end.

(** Leading-edge throttling as the specification words it: a call outside
    a cooldown runs the action at once, with its own receiver and
    arguments, and starts a cooldown of [limit]; a call inside a cooldown
    is dropped. [free_at] is the end of the cooldown last started. *)
Fixpoint leading_edge {Ctx Args} (first : bool) (limit : Z) (free_at : option Z)
         (calls : list (Z * call Ctx Args)) : list (invocation Ctx Args) :=
  match calls with
  | [] => []
  | tc :: rest =>
      if suppressed first free_at tc.1
      then leading_edge first limit free_at rest
      else throttled_invocation tc
             :: leading_edge first limit (Some (tc.1 + limit)%Z) rest
  end.

(** ** States of the reveal trigger *)

(** The elements under observation: those still pending. *)
Definition watching {E} (p : page E) : list nat :=
  from_option targets [] (observer p).

(** How many times the reveal action has fired for [el]. *)
Definition fired {E} (p : page E) (el : nat) : nat :=
  length (filter (fun x => x = el) (revealed p)).

(** No element has fired twice, and none that has fired is watched. *)
Definition one_shot {E} (p : page E) : Prop :=
  NoDup (revealed p) /\ NoDup (watching p) /\
  forall el, el ∈ revealed p -> el ∉ watching p.

(** The page after a warning on the console. *)
Definition warned {E} (msg : string) (p : page E) : page E :=
  Page (elements p) (console p ++ [msg]) (observer p) (revealed p)
       (page_uncaught p).

(** ** Reference behaviour of the rate limiters *)

(** Whether the timer armed by a call at [t] has fallen due when the next
    call arrives at [t']. *)
Definition lapsed (first : bool) (wait t t' : Z) : bool :=
  if first then (t + wait <=? t')%Z else (t + wait <? t')%Z.

(** Trailing-edge debouncing: a call is honoured, [wait] after it was
    made, when its timer has fallen due before the next call arrives; the
    last call is always honoured. *)
Fixpoint trailing_edge {Ctx Args} (first : bool) (wait : Z)
         (calls : list (Z * call Ctx Args)) : list (invocation Ctx Args) :=
  match calls with
  | [] => []
  | tc :: rest =>
      match rest with
      | [] => [debounced_invocation wait tc]
      | tc' :: _ =>
          if lapsed first wait tc.1 tc'.1
          then debounced_invocation wait tc :: trailing_edge first wait rest
          else trailing_edge first wait rest
      end
  end.


(** [inThrottle] is set and no timer will ever reset it. *)
Definition stuck {Ctx Args E} (w : throttle_world Ctx Args E) : Prop :=
  captured w = Some true /\ pending (clk w) = [].


(** ** Class lists *)

(** [classList.add], [classList.remove], [classList.toggle] and
    [classList.contains] on an ordered set of tokens. *)
Definition add_token (tok : string) (l : list string) : list string :=
  if decide (tok ∈ l) then l else l ++ [tok].

Definition remove_token (tok : string) (l : list string) : list string :=
  filter (fun x => x ≠ tok) l.

Definition toggle_token (tok : string) (l : list string) : list string :=
  if decide (tok ∈ l) then remove_token tok l else l ++ [tok].

Definition contains_token (tok : string) (l : list string) : bool :=
  bool_decide (tok ∈ l).

(** ** The navigation bar on scroll *)

(** [scrollY > 100] *)
Definition past_fold (scrollY : Q) : bool := negb (Qle_bool scrollY (100 # 1)).

(** The action [initNavbarScroll] throttles, for the value [scrollY] that
    [window.scrollY] has when it runs. *)
Definition updateNavbar (scrollY : Q) (navbar : element) : element :=
  if past_fold scrollY then
    Element (<["boxShadow" := "0 2px 20px rgba(0, 0, 0, 0.1)"]>
               (<["background" := "rgba(255, 255, 255, 0.98)"]> (style navbar)))
            (add_token "scrolled" (classList navbar))
  else
    Element (<["boxShadow" := "none"]>
               (<["background" := "rgba(255, 255, 255, 0.95)"]> (style navbar)))
            (remove_token "scrolled" (classList navbar)).

(** A scroll event: the receiver is the window, and the argument stands
    for the scroll position the action reads when the event is handled. *)
Definition scrolled_to (t : Z) (scrollY : Q) : Z * call string Q :=
  (t, Call "window" scrollY).

(** [updateNavbar] as an action: it always returns. *)
Definition navbar_action : action string Q string := fun _ _ => None.

(** The navigation bar after the runs of the action recorded in [log]. *)
Definition navbar_after (navbar : element) (log : list (invocation string Q))
  : element :=
  foldl (fun nb i => updateNavbar (inv_args i) nb) navbar log.

(** The scroll listener of [initNavbarScroll]: [updateNavbar] throttled
    to one run per 16 time units. *)
Definition navbar_on_scroll (env : host) (navbar : element)
           (events : list (Z * call string Q)) : element :=
  navbar_after navbar (invoked (throttle_run env navbar_action 16 events)).

(** ** Highlighting the active navigation link *)

Record page_section : Type := PageSection {
  section_id : string;
  offsetTop : Z;
  clientHeight : Z
}.

Record nav_link : Type := NavLink {
  href : option string;
  link_classList : list string
}.

(** [scrollY >= sectionTop && scrollY < sectionTop + sectionHeight] with
    [sectionTop = section.offsetTop - 200]. *)
Definition in_view (scrollY : Q) (s : page_section) : bool :=
  let sectionTop := (offsetTop s - 200)%Z in
  let sectionHeight := clientHeight s in
  Qle_bool (inject_Z sectionTop) scrollY &&
  negb (Qle_bool (inject_Z (sectionTop + sectionHeight)) scrollY).

(** The variable [current] after [sections.forEach]. *)
Definition current_section (sections : list page_section) (scrollY : Q) : string :=
  foldl (fun current s => if in_view scrollY s then section_id s else current)
        "" sections.

(** The action [initActiveNavigation] throttles. *)
Definition updateActiveLink (sections : list page_section) (scrollY : Q)
           (navLinks : list nav_link) : list nav_link :=
  let current := current_section sections scrollY in
  (fun link =>
     let removed := remove_token "active" (link_classList link) in
     NavLink (href link)
             (if decide (href link = Some ("#" +:+ current))
              then add_token "active" removed else removed)) <$> navLinks.

(** ** The mobile menu *)

Record mobile_nav : Type := MobileNav {
  hamburger_classList : list string;
  navMenu_classList : list string;
  aria_expanded : option string;
  aria_hidden : option string;
  body_overflow : string
}.

(** A boolean converted to an attribute value. *)
Definition attr_of_bool (b : bool) : string := if b then "true" else "false".

Definition toggleMobileMenu (n : mobile_nav) : mobile_nav :=
  let isActive := contains_token "active" (hamburger_classList n) in
  MobileNav (toggle_token "active" (hamburger_classList n))
            (toggle_token "active" (navMenu_classList n))
            (Some (attr_of_bool (negb isActive)))
            (Some (attr_of_bool isActive))
            (if negb isActive then "hidden" else "").

(** The listeners [initMobileNavigation] registers: on the hamburger, on
    each navigation link, and the two on the document. A document click
    knows whether its target lies inside the hamburger or the menu. *)
Inductive nav_listener : Type :=
| HamburgerClick
| LinkClick
| DocumentClick (in_hamburger in_navMenu : bool)
| DocumentKeydown (key : string).

Definition close_if_open (n : mobile_nav) : mobile_nav :=
  if contains_token "active" (hamburger_classList n)
  then toggleMobileMenu n else n.

Definition nav_listener_runs (n : mobile_nav) (l : nav_listener) : mobile_nav :=
  match l with
  | HamburgerClick => toggleMobileMenu n
  | LinkClick => close_if_open n
  | DocumentClick in_hamburger in_navMenu =>
      if negb in_hamburger && negb in_navMenu then close_if_open n else n
  | DocumentKeydown key =>
      if bool_decide (key = "Escape") &&
         contains_token "active" (hamburger_classList n)
      then toggleMobileMenu n else n
  end.

(** The menu is open: the hamburger carries the class [active]. *)
Definition menu_open (n : mobile_nav) : Prop :=
  "active" ∈ hamburger_classList n.

(** Hamburger and menu agree on the class [active]. *)
Definition in_step (n : mobile_nav) : Prop :=
  "active" ∈ hamburger_classList n <-> "active" ∈ navMenu_classList n.

(** The attributes and the scroll lock say what the classes say. *)
Definition coherent (n : mobile_nav) : Prop :=
  in_step n /\
  aria_expanded n = Some (attr_of_bool (contains_token "active" (hamburger_classList n))) /\
  aria_hidden n = Some (attr_of_bool (negb (contains_token "active" (hamburger_classList n)))) /\
  body_overflow n =
    (if contains_token "active" (hamburger_classList n) then "hidden" else "").

(** Listeners that close an open menu: a click on a link, a click
    outside hamburger and menu, the Escape key. *)
Definition closes (l : nav_listener) : bool :=
  match l with
  | HamburgerClick => false
  | LinkClick => true
  | DocumentClick in_hamburger in_navMenu => negb in_hamburger && negb in_navMenu
  | DocumentKeydown key => bool_decide (key = "Escape")
  end.

(** What [updateActiveLink] leaves alone in a link: its target and
    every class but [active]. *)
Definition same_but_active (old new : nav_link) : Prop :=
  href new = href old /\
  forall tok, tok ≠ "active" ->
    (tok ∈ link_classList new <-> tok ∈ link_classList old).

(** ** The typing animation *)

Section Typing.
Context {Char : Type}.

(** Assigning markup to [innerHTML] makes the host parse it, and reading
    [innerHTML] serialises the parsed content again: [reparse markup] is
    what the title reads after [markup] was assigned to it. *)
Variable reparse : list Char -> list Char.

(** The closures handed to [setTimeout]: the arrow function of the load
    listener, which calls [typeWriter], and the function [type]. *)
Inductive typing_closure : Type := StartTyping | TypeNext.

(** The hero title while it is typed, in a host with timers. [ty_text]
    and [ty_speed] are the parameters of [typeWriter], [ty_i] its counter.
    [ty_html] is what [innerHTML] reads, [None] as long as the script has
    not assigned it. [ty_stamps] is instrumentation: the instants at
    which [innerHTML += ...] ran. *)
Record typist : Type := Typist {
  ty_clk : clock typing_closure;
  ty_text : list Char;
  ty_speed : Z;
  ty_i : nat;
  ty_html : option (list Char);
  ty_stamps : list Z
}.

(** [const type = () => { if (i < text.length) { ... } }] *)
Definition type_next (w : typist) : typist :=
  match ty_text w !! ty_i w with
  | Some c =>
      Typist (arm TypeNext (to_int32 (ty_speed w)) (ty_clk w)).2
             (ty_text w) (ty_speed w) (S (ty_i w))
             ((fun html => reparse (html ++ [c])) <$> ty_html w)
             (ty_stamps w ++ [now (ty_clk w)])
  | None => w
  end.

(** [typeWriter(element, text, speed)] *)
Definition typeWriter (text : list Char) (speed : Z) (w : typist) : typist :=
  type_next (Typist (ty_clk w) text speed 0 (Some (reparse [])) (ty_stamps w)).

Definition typing_exec (c : typing_closure) (w : typist) : typist :=
  match c with
  | StartTyping => typeWriter (ty_text w) 80 w
  | TypeNext => type_next w
  end.

(** The load listener of [initTypingAnimation], run at [t0] on a title
    whose text content is [originalText]. *)
Definition typing_on_load (t0 : Z) (originalText : list Char) : typist :=
  Typist (arm StartTyping (to_int32 500) (set_now t0 clock0)).2
         originalText 80 0 None [].

(** [initTypingAnimation], then the load event at [t0]: nothing is
    registered when the title is missing or reduced motion is preferred. *)
Definition initTypingAnimation (heroTitle : option (list Char))
           (prefersReducedMotion : bool) (t0 : Z) : typist :=
  match heroTitle with
  | Some originalText =>
      if prefersReducedMotion
      then Typist (set_now t0 clock0) originalText 80 0 None []
      else typing_on_load t0 originalText
  | None => Typist (set_now t0 clock0) [] 80 0 None []
  end.

(** The next timer runs. *)
Definition typing_fire (w : typist) : option typist :=
  match take_due true None (ty_clk w) with
  | Some (tm, k) =>
      Some (typing_exec (callback tm)
              (Typist k (ty_text w) (ty_speed w) (ty_i w) (ty_html w)
                      (ty_stamps w)))
  | None => None
  end.

(** At most [fuel] timers run. *)
Fixpoint typing_settle (fuel : nat) (w : typist) : typist :=
  match fuel with
  | O => w
  | S n =>
      match typing_fire w with
      | Some w' => typing_settle n w'
      | None => w
      end
  end.

(** The markup survives assignment to [innerHTML] unchanged. *)
Definition plain (markup : list Char) : Prop := reparse markup = markup.

(** The first [k] characters have been typed and the timer for the next
    one is set. *)
Definition typing_at (t0 : Z) (text : list Char) (k : nat) (w : typist) : Prop :=
  ty_text w = text /\ ty_speed w = 80%Z /\ ty_i w = k /\
  ty_html w = Some (take k text) /\
  ty_stamps w = (fun j => (t0 + 500 + 80 * Z.of_nat j)%Z) <$> seq 0 k /\
  (now (ty_clk w) <= t0 + 500 + 80 * Z.of_nat k)%Z /\
  exists h, pending (ty_clk w) =
            [Timer h (t0 + 500 + 80 * Z.of_nat k)%Z TypeNext].
End Typing.
Arguments typist Char : clear implicits.

(** A host that, on assignment to [innerHTML], turns a carriage return
    (13) into a line feed (10); characters are code units. *)
Definition newline_normalising (markup : list nat) : list nat :=
  (fun c => if decide (c = 13) then 10 else c) <$> markup.

(** ** Start-up *)

(** The state [S] of the page together with what [init] itself writes to
    the console: [console.log] lines and [console.error] reports. *)
Record booted (S E : Type) : Type := Booted {
  boot_state : S;
  boot_logged : list string;
  boot_errors : list (string * error E)
}.
Arguments Booted {S E} _ _ _.
Arguments boot_state {S E} _.
Arguments boot_logged {S E} _.
Arguments boot_errors {S E} _.

Definition console_log {S E} (msg : string) : js E (booted S E) unit :=
  fun b => (Normal tt,
            Booted (boot_state b) (boot_logged b ++ [msg]) (boot_errors b)).

Definition console_error {S E} (msg : string) (x : error E)
  : js E (booted S E) unit :=
  fun b => (Normal tt,
            Booted (boot_state b) (boot_logged b) (boot_errors b ++ [(msg, x)])).

(** Statements run one after the other. *)
Fixpoint in_turn {S E} (ms : list (js E S unit)) : js E S unit :=
  match ms with
  | [] => ret tt
  | m :: ms' => m ;;; in_turn ms'
  end.

(** [init]: the calls of the initialisers, in the order of the source,
    are the list [initializers]. *)
Definition init {S E} (initializers : list (js E (booted S E) unit))
  : js E (booted S E) unit :=
  try_catch
    (in_turn initializers ;;;
     console_log "Portfolio initialized successfully")
    (fun error => console_error "Error initializing portfolio:" error).

(** ** What a frame shows *)

(** The frame reports for [el] a visible fraction of at least [th]. *)
Definition reaches (fr : frame) (th : Q) (el : nat) : bool :=
  match fr el with
  | Some r => Qle_bool th r
  | None => false
  end.

(** The inline opacity and the classes of an element of the page. *)
Definition opacity_of {E} (p : page E) (el : nat) : option string :=
  (elements p !! el) ≫= (fun e => style e !! "opacity").

Definition classes_of {E} (p : page E) (el : nat) : list string :=
  from_option classList [] (elements p !! el).

(** An animated element is either still hidden and watched, or revealed
    for good. An element that is not in the document has no style. *)
Definition hidden {E} (p : page E) (el : nat) : Prop :=
  el ∈ watching p /\ (el ∉ revealed p) /\
  opacity_of p el = (fun _ => "0") <$> (elements p !! el).

Definition shown {E} (p : page E) (el : nat) : Prop :=
  el ∈ revealed p /\ (el ∉ watching p) /\
  opacity_of p el = (fun _ => "1") <$> (elements p !! el) /\
  (is_Some (elements p !! el) -> "animated" ∈ classes_of p el).

(** The element after the three assignments of the reveal action, and
    after the three assignments that conceal it when it is set up. *)
Definition restyled (e : element) : element :=
  Element (<["transform" := "translateY(0)"]> (<["opacity" := "1"]> (style e)))
          (add_token "animated" (classList e)).

Definition concealed (e : element) : element :=
  Element (<["transition" := "opacity 0.6s ease, transform 0.6s ease"]>
             (<["transform" := "translateY(30px)"]>
                (<["opacity" := "0"]> (style e))))
          (classList e).

(** ** The staggered card animation *)

Section Stagger.
Context {E : Type}.

(** The page with the card observer, the timers of a host that has
    them, whose closures each reveal one card, and, as instrumentation,
    the cards revealed so far, each with the instant of its reveal. *)
Record stage : Type := Stage {
  st_page : page E;
  st_clk : clock nat;
  st_shown : list (Z * nat)
}.

(** A statement that touches the page only. *)
Definition on_page {A} (m : js E (page E) A) : js E stage A :=
  fun s =>
    match m (st_page s) with
    | (r, p') => (r, Stage p' (st_clk s) (st_shown s))
    end.

Definition stage_setTimeout (cb : nat) (delay : Z) : js E stage nat :=
  fun s =>
    match arm cb delay (st_clk s) with
    | (h, k) => (Normal h, Stage (st_page s) k (st_shown s))
    end.

Definition mark_shown (el : nat) : js E stage unit :=
  fun s => (Normal tt,
            Stage (st_page s) (st_clk s) (st_shown s ++ [(now (st_clk s), el)])).

(** The arrow function handed to [setTimeout] for the card [el]. *)
Definition reveal_card (el : nat) : js E stage unit :=
  mark_shown el ;;;
  on_page (set_style el "opacity" "1" ;;;
           set_style el "transform" "translateY(0) scale(1)" ;;;
           classList_add el "stagger-animated").

(** [entries.forEach((entry, index) => ...)], from [index] on. *)
Fixpoint stagger_entries (index : nat) (entries : list entry) : js E stage unit :=
  match entries with
  | [] => ret tt
  | entry :: rest =>
      (if isIntersecting entry then
         stage_setTimeout (target entry) (Z.of_nat index * 150) ;;;
         on_page (unobserve (target entry))
       else ret tt) ;;;
      stagger_entries (S index) rest
  end.

(** The callback of [cardObserver]. *)
Definition card_callback (entries : list entry) : js E stage unit :=
  stagger_entries 0 entries.

Definition card_selector : string := ".skill-card, .project-card, .contact-card".

(** [card.classList.contains(token)] *)
Definition classList_contains (el : nat) (token : string) : js E (page E) bool :=
  fun p => (Normal (bool_decide (token ∈ from_option classList [] (elements p !! el))),
            p).

(** The arrow function applied to each card. *)
Definition prepare_card (card : nat) : js E (page E) unit :=
  let! animated := classList_contains card "animated" in
  if negb animated then
    set_style card "opacity" "0" ;;;
    set_style card "transform" "translateY(30px) scale(0.95)" ;;;
    set_style card "transition" "all 0.6s ease" ;;;
    observe card
  else ret tt.

Definition initStaggeredAnimations (doc : document E) (env : host)
  : js E (page E) unit :=
  if negb (has_IntersectionObserver env) then ret tt
  else
    new_IntersectionObserver (3 # 10) "0px 0px 0px 0px" ;;;
    let! cards := safeQuerySelectorAll doc card_selector in
    forEach cards prepare_card.

(** The host runs a callback to completion and reports what escapes. *)
Definition stage_runs (m : js E stage unit) (s : stage) : stage :=
  match m s with
  | (Normal _, s') => s'
  | (Abrupt x, s') =>
      Stage (Page (elements (st_page s')) (console (st_page s'))
                  (observer (st_page s')) (revealed (st_page s'))
                  (page_uncaught (st_page s') ++ [x]))
            (st_clk s') (st_shown s')
  end.

(** A notification at the instant [t], for what the frame shows. *)
Definition stage_notify (t : Z) (fr : frame) (s : stage) : stage :=
  let s0 := Stage (st_page s) (set_now t (st_clk s)) (st_shown s) in
  match observer (st_page s) with
  | None => s0
  | Some o =>
      match take_entries fr o with
      | [] => s0
      | entries => stage_runs (card_callback entries) s0
      end
  end.

(** The next timer runs. *)
Definition stage_fire (s : stage) : option stage :=
  match take_due true None (st_clk s) with
  | Some (tm, k) =>
      Some (stage_runs (reveal_card (callback tm))
                       (Stage (st_page s) k (st_shown s)))
  | None => None
  end.

(** At most [fuel] timers run. *)
Fixpoint stage_settle (fuel : nat) (s : stage) : stage :=
  match fuel with
  | O => s
  | S n =>
      match stage_fire s with
      | Some s' => stage_settle n s'
      | None => s
      end
  end.
End Stagger.
Arguments stage E : clear implicits.

(** What happens to the stage: a notification arrives, or the next timer
    runs (nothing happens if none is pending). *)
Inductive stage_event : Type :=
| Notified (t : Z) (fr : frame)
| TimerRuns.

Definition stage_step {E} (s : stage E) (ev : stage_event) : stage E :=
  match ev with
  | Notified t fr => stage_notify t fr s
  | TimerRuns => default s (stage_fire s)
  end.

(** The cards with a reveal scheduled or done. *)
Definition claimed {E} (s : stage E) : list nat :=
  (callback <$> pending (st_clk s)) ++ (snd <$> st_shown s).

(** No card is claimed twice, and no claimed card is watched. *)
Definition staged_once {E} (s : stage E) : Prop :=
  NoDup (claimed s) /\ NoDup (watching (st_page s)) /\
  forall el, el ∈ claimed s -> el ∉ watching (st_page s).

(** The reveals a batch delivered at [t] asks for: an intersecting entry
    at position [index] of the batch is due [150 * index] later. *)
Fixpoint schedule_from (t : Z) (index : nat) (entries : list entry)
  : list (Z * nat) :=
  match entries with
  | [] => []
  | entry :: rest =>
      (if isIntersecting entry
       then [((t + Z.of_nat index * 150)%Z, target entry)] else [])
      ++ schedule_from t (S index) rest
  end.

(** Timers with consecutive handles from [n0] for the reveals [xs]. *)
Definition armed_list (n0 : nat) (xs : list (Z * nat)) : list (timer nat) :=
  imap (fun j x => Timer (n0 + j) x.1 x.2) xs.

(** Instants that do not decrease, starting at or after [lo]. *)
Fixpoint ascending (lo : Z) (xs : list (Z * nat)) : Prop :=
  match xs with
  | [] => True
  | x :: xs' => (lo <= x.1)%Z /\ ascending x.1 xs'
  end.

(** ** The two animations on one page *)

(** [init] sets up both animations on the same elements, each with an
    observer of its own. The observer slot of the stage's page holds the
    card observer, [sc_scroll] the observer of [initScrollAnimations]. *)
Record scene (E : Type) : Type := Scene {
  sc_stage : stage E;
  sc_scroll : option observer_state
}.
Arguments Scene {E} _ _.
Arguments sc_stage {E} _.
Arguments sc_scroll {E} _.

(** The page as the scroll observer and its callback see it. *)
Definition scroll_view {E} (c : scene E) : page E :=
  with_observer (sc_scroll c) (st_page (sc_stage c)).

(** The page after [initScrollAnimations] and then
    [initStaggeredAnimations], the two of [init] that animate elements
    on entry. *)
Definition both_set_up {E} (doc : document E) (env : host)
           (elems : gmap nat element) : scene E :=
  let p1 := (initScrollAnimations doc env (page0 elems)).2 in
  let p2 := (initStaggeredAnimations doc env (with_observer None p1)).2 in
  Scene (Stage p2 clock0 []) (observer p1).

(** What happens next: the scroll observer is notified of a frame, or
    something happens to the card observer and its timers. *)
Inductive scene_event : Type :=
| ScrollNotified (fr : frame)
| CardEvent (ev : stage_event).

Definition scene_step {E} (c : scene E) (ev : scene_event) : scene E :=
  match ev with
  | ScrollNotified fr =>
      let p := notify scroll_callback (scroll_view c) fr in
      Scene (Stage (with_observer (observer (st_page (sc_stage c))) p)
                   (st_clk (sc_stage c)) (st_shown (sc_stage c)))
            (observer p)
  | CardEvent ev => Scene (stage_step (sc_stage c) ev) (sc_scroll c)
  end.

(** The elements [initStaggeredAnimations] selects. *)
Definition selected_cards {E} (doc : document E) : list nat :=
  match querySelectorAll doc card_selector with
  | Normal cards => cards
  | Abrupt _ => []
  end.

(** ** Smooth scrolling *)

(** What a click on an in-page link does besides writing to the console:
    whether the default action was prevented, the [top] handed to
    [window.scrollTo], and the element that was given focus. *)
Record click_effects : Type := ClickEffects {
  default_prevented : bool;
  scrollTo_top : option Z;
  focused : option nat
}.

Section SmoothScrolling.
Context {E : Type}.
Variable doc : document E.
(** Layout, as the host reports it: [el.offsetTop] and [el.offsetHeight]. *)
Variable el_offsetTop : nat -> Z.
Variable el_offsetHeight : nat -> Z.

(** [safeQuerySelector(".navbar")?.offsetHeight || 70] *)
Definition navbar_height (navbar : option nat) : Z :=
  match navbar with
  | Some nb => if decide (el_offsetHeight nb = 0%Z) then 70%Z else el_offsetHeight nb
  | None => 70%Z
  end.

(** The click listener of [initSmoothScrolling], on a link whose [href]
    attribute is [targetId]. *)
Definition anchor_click (targetId : string) : js E (page E) click_effects :=
  let! target := safeQuerySelector doc targetId in
  match target with
  | Some tg =>
      let! navbar := safeQuerySelector doc ".navbar" in
      let navbarHeight := navbar_height navbar in
      let targetPosition := (el_offsetTop tg - navbarHeight)%Z in
      ret (ClickEffects true (Some targetPosition) (Some tg))
  | None =>
      console_warn ("Target element not found: " +:+ targetId) ;;;
      ret (ClickEffects true None None)
  end.
End SmoothScrolling.

(** The inline style the staggered set-up gives a card. *)
Definition stagger_styled (e : element) : Prop :=
  style e !! "opacity" = Some "0" /\
  style e !! "transform" = Some "translateY(30px) scale(0.95)" /\
  style e !! "transition" = Some "all 0.6s ease".

(** The card as [prepare_card] leaves it when it lacks the class
    [animated]. *)
Definition stagger_concealed (e : element) : element :=
  Element (<["transition" := "all 0.6s ease"]>
             (<["transform" := "translateY(30px) scale(0.95)"]>
                (<["opacity" := "0"]> (style e))))
          (classList e).

(** ** Sample hosts, actions and calls *)

(** A browser: timers, intersection observation, timers before events. *)
Definition browser : host := Host true true true.

(** A host in which [setTimeout] and [clearTimeout] are unbound. *)
Definition untimed : host := Host false true true.

(** A host without [IntersectionObserver]. *)
Definition blind : host := Host true true false.

(** An action that always returns, and one that always throws. *)
Definition quiet : action string nat string := fun _ _ => None.
Definition failing : action string nat string := fun _ _ => Some "boom".

(** A call with receiver [window] and one numeric argument. *)
Definition on_window (n : nat) : call string nat := Call "window" n.

(** A document with two animated cards, elements 1 and 2, whose selector
    engine rejects the selector ["["]. *)
Definition two_cards : document string :=
  Document
    (fun sel => if decide (sel = "[") then Abrupt (Thrown "SyntaxError")
                else Normal (Some 1))
    (fun sel => if decide (sel = "[") then Abrupt (Thrown "SyntaxError")
                else Normal [1; 2]).

Definition bare_cards : gmap nat element :=
  {[ 1 := Element ∅ []; 2 := Element ∅ [] ]}.

(** A frame in which card 1 shows the fraction [q] and card 2 nothing. *)
Definition card1_shows (q : Q) : frame :=
  fun el => if decide (el = 1) then Some q
            else if decide (el = 2) then Some (0 # 1)%Q else None.

(** Card 1 stays under the threshold, reaches it, leaves, and comes back. *)
Definition card1_comes_and_goes : list frame :=
  [card1_shows (1 # 20); card1_shows (1 # 10); card1_shows (0 # 1);
   card1_shows (1 # 2)].

(** A document with the cards 1 and 2 and a block of text, element 3,
    that only [initScrollAnimations] animates. *)
Definition cards_and_text : document string :=
  Document
    (fun sel => Normal None)
    (fun sel => if decide (sel = card_selector) then Normal [1; 2]
                else if decide (sel = animated_selector) then Normal [1; 2; 3]
                else Normal []).

Definition bare_page : gmap nat element :=
  {[ 1 := Element ∅ []; 2 := Element ∅ []; 3 := Element ∅ [] ]}.

(** A frame in which every element shows the fraction [q]. *)
Definition all_show (q : Q) : frame := fun el => Some q.

(** A reveal action that throws. *)
Definition failing_reveal (el : nat) : js string (page string) unit :=
  throw (Thrown "boom").

(** * Properties *)

(** ** The event loop *)

Section LoopFacts.
Context {Ctx Args E V C : Type}.
Implicit Types (w : world Ctx Args E V C).
Variable env : host.
Variable exec : C -> js E (world Ctx Args E V C) unit.

Lemma filter_tid_single (tm : timer C) :
  filter (fun u : timer C => tid u ≠ tid tm) [tm] = [].
Proof. rewrite filter_cons_False; [done | naive_solver]. Qed.

Lemma to_int32_small (d : Z) : (0 <= d < 2 ^ 31)%Z -> to_int32 d = d.
Proof.
  intros Hd. unfold to_int32.
  rewrite Z.mod_small by lia. lia.
Qed.

Lemma cancel_now h (k : clock C) : now (cancel h k) = now k.
Proof. by destruct h. Qed.

Lemma cancel_next_id h (k : clock C) : next_id (cancel h k) = next_id k.
Proof. by destruct h. Qed.

Lemma cancel_set_now h t (k : clock C) :
  pending (cancel h (set_now t k)) = pending (cancel h k).
Proof. by destruct h. Qed.

Lemma advance_idle bound w :
  pending (clk w) = [] -> advance env exec bound w = w.
Proof. intros H. unfold advance. rewrite H. reflexivity. Qed.

Lemma advance_single bound w tm :
  pending (clk w) = [tm] ->
  advance env exec bound w =
    if eligible (timers_first env) bound tm
    then host_runs (exec (callback tm))
           (with_clk (Clock (Z.max (now (clk w)) (due tm)) (next_id (clk w)) []) w)
    else w.
Proof.
  intros H. unfold advance. rewrite H. simpl.
  unfold fire, take_due. rewrite H. simpl.
  destruct (eligible _ _ _); [| done].
  rewrite filter_tid_single. reflexivity.
Qed.
End LoopFacts.

(** ** debounce *)

Section DebounceFacts.
Context {Ctx Args E : Type}.
Implicit Types (w : debounce_world Ctx Args E) (c : call Ctx Args)
         (tc : Z * call Ctx Args).

Lemma tracked_cancel w : tracked w -> pending (cancel (captured w) (clk w)) = [].
Proof.
  intros [H | (tm & H & Hc)]; rewrite ?Hc; unfold cancel.
  - destruct (captured w); simpl; rewrite ?H; done.
  - simpl. rewrite H. apply filter_tid_single.
Qed.

Lemma armed_tracked wait w tc : armed wait w tc -> tracked w.
Proof. intros (h & Hk & Hc). right. rewrite Hk. simpl. eauto. Qed.

Section AnyHost.
Variable env : host.
Variable func : action Ctx Args E.
Variable wait : Z.


Lemma executedFunction_invoked c w :
  invoked (host_runs (executedFunction env wait c) w) = invoked w.
Proof.
  unfold host_runs, executedFunction, bind, read, clearTimeout, setTimeout, write.
  destruct (has_timers env); reflexivity.
Qed.


Lemma later_captured a w :
  captured (host_runs (later env func a) w) = captured w.
Proof.
  unfold host_runs, later, bind, read, clearTimeout, call_action.
  destruct (has_timers env); simpl; [| done].
  destruct (func None a); reflexivity.
Qed.

End AnyHost.

Section AnyHostLoop.
Variable env : host.
Variable func : action Ctx Args E.
Variable wait : Z.






Lemma untimed_fold calls : forall w,
  has_timers env = false -> pending (clk w) = [] ->
  let w' := foldl (debounce_deliver env func wait) w calls in
  pending (clk w') = [] /\ invoked w' = invoked w.
Proof.
  induction calls as [| tc calls IH]; intros w He Hw; [done |].
  simpl.
  assert (pending (clk (debounce_deliver env func wait w tc)) = [] /\
          invoked (debounce_deliver env func wait w tc) = invoked w) as [H1 H2].
  { unfold debounce_deliver, deliver. rewrite advance_idle by done.
    unfold host_runs, executedFunction, bind, read, clearTimeout. rewrite He.
    simpl. done. }
  destruct (IH _ He H1) as [? ?]. split; [done | congruence].
Qed.
End AnyHostLoop.

Section TimedHost.
Variables first io : bool.
Variable func : action Ctx Args E.
Variable wait : Z.
Hypothesis wait_nonneg : (0 <= wait < 2 ^ 31)%Z.
Local Abbreviation env := (timed_host first io).

Lemma call_arms tc w :
  tracked w ->
  let w' := host_runs (executedFunction env wait tc.2)
                      (with_clk (set_now tc.1 (clk w)) w) in
  armed wait w' tc /\ invoked w' = invoked w /\ uncaught w' = uncaught w.
Proof.
  intros Hw. pose proof (tracked_cancel w Hw) as Hc.
  unfold host_runs, executedFunction, bind, read, clearTimeout, setTimeout, write.
  simpl. split; [| done].
  exists (next_id (clk w)). simpl.
  rewrite cancel_now, cancel_next_id, cancel_set_now, Hc. simpl.
  rewrite to_int32_small by done. rewrite Z.max_r by lia. done.
Qed.

Lemma deliver_idle tc w :
  pending (clk w) = [] ->
  let w' := debounce_deliver env func wait w tc in
  armed wait w' tc /\ invoked w' = invoked w.
Proof.
  intros H. unfold debounce_deliver, deliver.
  rewrite advance_idle by done.
  destruct (call_arms tc w) as (? & ? & ?); [by left | done].
Qed.


Lemma honour bound tc w :
  armed wait w tc ->
  eligible first bound
    (Timer 0 (tc.1 + wait) (Later (call_args tc.2))) = true ->
  let w' := debounce_advance env func bound w in
  pending (clk w') = [] /\ captured w' = captured w /\
  invoked w' = invoked w ++ [debounced_invocation wait tc].
Proof.
  intros (h & Hk & Hc) He. unfold debounce_advance.
  erewrite advance_single by (rewrite Hk; reflexivity).
  replace (eligible _ _ _) with true by (rewrite <- He; done).
  rewrite Hk. unfold host_runs. simpl.
  unfold later, bind, read, clearTimeout, call_action, debounced_invocation. simpl.
  rewrite Z.max_r by lia.
  destruct (captured w), (func None _); simpl; done.
Qed.

Lemma deliver_beyond tc tc' w :
  armed wait w tc -> beyond wait tc.1 tc'.1 ->
  let w' := debounce_deliver env func wait w tc' in
  armed wait w' tc' /\
  invoked w' = invoked w ++ [debounced_invocation wait tc].
Proof.
  intros Hw Ht.
  destruct (honour (Some tc'.1) tc w Hw) as (Hp & Hc & Hi).
  { unfold beyond in Ht. simpl. destruct first; lia. }
  unfold debounce_deliver, deliver. fold (debounce_advance env func).
  destruct (call_arms tc' (debounce_advance env func (Some tc'.1) w))
    as (? & ? & ?); [by left |].
  split; [done | congruence].
Qed.


Lemma fold_beyond rest : forall tc w,
  armed wait w tc -> chain (beyond wait) tc.1 rest.*1 ->
  let w' := debounce_advance env func None
              (foldl (debounce_deliver env func wait) w rest) in
  pending (clk w') = [] /\
  invoked w' = invoked w ++ (debounced_invocation wait <$> tc :: rest).
Proof.
  induction rest as [| tc' rest IH]; intros tc w Hw Hch.
  - destruct (honour None tc w Hw) as (? & ? & ?); done.
  - destruct Hch as [Ht Hch]. simpl.
    destruct (deliver_beyond tc tc' w Hw Ht) as [Hw' Hi'].
    destruct (IH tc' _ Hw' Hch) as [Hp Hi].
    split; [exact Hp |].
    rewrite Hi, Hi', <- app_assoc. reflexivity.
Qed.
End TimedHost.
End DebounceFacts.



(** C5. Calls to a debounced callable that follow one another more than
    [wait] apart make the action run once per call, each time with that
    call's arguments ([wait] after the call); the last call is honoured
    too although no call follows it. [wait] is a delay that [setTimeout]
    takes as it is, from 0 to 2^31 - 1. *)
Theorem debounce_spaced_fires_each {Ctx Args E} (first io : bool)
    (func : action Ctx Args E) (wait : Z) (calls : list (Z * call Ctx Args)) :
  (0 <= wait < 2 ^ 31)%Z ->
  spaced (beyond wait) calls ->
  let w := debounce_run (timed_host first io) func wait calls in
  invoked w = debounced_invocation wait <$> calls /\
  pending (clk w) = [].
Proof.
  intros Hwait Hsp. destruct calls as [| tc0 rest]; [done |].
  unfold debounce_run, run. simpl.
  destruct (deliver_idle first io func wait Hwait tc0 debounce) as [Ha Hi]; [done |].
  destruct (fold_beyond first io func wait Hwait rest tc0 _ Ha Hsp) as [Hp Hinv].
  split; [| exact Hp].
  unfold debounce_advance, debounce_deliver in *.
  rewrite Hinv, Hi. reflexivity.
Qed.



(** ** throttle *)

Section ThrottleFacts.
Context {Ctx Args E : Type}.
Implicit Types (w : throttle_world Ctx Args E) (c : call Ctx Args)
         (tc : Z * call Ctx Args).
Variable env : host.
Variable func : action Ctx Args E.
Variable limit : Z.

Lemma throttled_closed c w :
  truthy (captured w) = true -> throttled env func limit c w = (Normal tt, w).
Proof.
  intros H. unfold throttled, bind, read. simpl. rewrite H. reflexivity.
Qed.

Lemma throttled_throws c w e :
  truthy (captured w) = false ->
  func (Some (call_this c)) (call_args c) = Some e ->
  throttled env func limit c w =
    (Abrupt (Thrown e),
     World (clk w) (captured w)
           (invoked w ++ [Invocation (now (clk w)) (Some (call_this c)) (call_args c)])
           (uncaught w)).
Proof.
  intros H He. unfold throttled, bind, read, call_action. simpl.
  rewrite H. simpl. rewrite He. reflexivity.
Qed.

Lemma throttled_returns c w :
  truthy (captured w) = false -> returns func c ->
  throttled env func limit c w =
    let w' := World (clk w) (Some true)
                (invoked w ++ [Invocation (now (clk w)) (Some (call_this c)) (call_args c)])
                (uncaught w) in
    if has_timers env
    then (Normal tt, with_clk (arm Release (to_int32 limit) (clk w)).2 w')
    else (Abrupt (ReferenceError "setTimeout"), w').
Proof.
  intros H He. unfold throttled, bind, read, call_action, write, setTimeout. simpl.
  rewrite H. simpl. rewrite He. simpl. destruct (has_timers env); reflexivity.
Qed.

Lemma deliver_closed tc w d :
  closed w d -> (tc.1 < d)%Z ->
  let w' := throttle_deliver env func limit w tc in
  closed w' d /\ invoked w' = invoked w.
Proof.
  intros [Hc Hp] Ht. unfold throttle_deliver, deliver.
  assert (advance env throttle_exec (Some tc.1) w = w) as ->.
  { destruct Hp as [Hp | [h Hp]]; [by apply advance_idle |].
    erewrite advance_single by exact Hp.
    replace (eligible _ _ _) with false; [done |].
    simpl. destruct (timers_first env); symmetry; lia. }
  unfold host_runs. rewrite throttled_closed by (simpl; by rewrite Hc).
  done.
Qed.

Lemma fold_closed rest : forall w d,
  closed w d -> Forall (fun t => (t < d)%Z) rest.*1 ->
  let w' := foldl (throttle_deliver env func limit) w rest in
  closed w' d /\ invoked w' = invoked w.
Proof.
  induction rest as [| tc rest IH]; intros w d Hw Hts; [done |].
  apply Forall_cons in Hts as [Ht Hts]. simpl.
  destruct (deliver_closed tc w d Hw Ht) as [Hw' Hi'].
  destruct (IH _ d Hw' Hts) as [? Hi]. split; [done | congruence].
Qed.

Lemma drain_closed w d :
  closed w d ->
  let w' := throttle_advance env None w in
  pending (clk w') = [] /\ invoked w' = invoked w.
Proof.
  intros [Hc [Hp | [h Hp]]]; unfold throttle_advance.
  - by rewrite advance_idle.
  - erewrite advance_single by exact Hp. done.
Qed.

Lemma first_call_closes tc w :
  open w -> returns func tc.2 ->
  let w' := throttle_deliver env func limit w tc in
  closed w' (tc.1 + Z.max 0 (to_int32 limit)) /\
  invoked w' = invoked w ++ [throttled_invocation tc].
Proof.
  intros [Hc Hp] Hr. unfold throttle_deliver, deliver.
  rewrite advance_idle by done.
  unfold host_runs. rewrite throttled_returns by done. simpl.
  unfold closed. rewrite Hp.
  destruct (has_timers env); simpl; split; eauto.
Qed.
End ThrottleFacts.

Section ThrottleTimed.
Context {Ctx Args E : Type}.
Implicit Types (w : throttle_world Ctx Args E) (c : call Ctx Args)
         (tc : Z * call Ctx Args).
Variables first io : bool.
Variable func : action Ctx Args E.
Variable limit : Z.
Hypothesis limit_nonneg : (0 <= limit < 2 ^ 31)%Z.
Local Abbreviation env := (timed_host first io).

Lemma deliver_open tc w :
  open w ->
  let w' := throttle_deliver env func limit w tc in
  invoked w' = invoked w ++ [throttled_invocation tc] /\
  match func (Some (call_this tc.2)) (call_args tc.2) with
  | None => cooling w' (tc.1 + limit)
  | Some _ => open w'
  end.
Proof.
  intros [Hc Hp]. unfold throttle_deliver, deliver.
  rewrite advance_idle by done. unfold host_runs.
  destruct (func _ _) as [e |] eqn:He.
  - erewrite throttled_throws by done. done.
  - rewrite throttled_returns by done. simpl.
    rewrite Hp, to_int32_small by done. rewrite Z.max_r by lia.
    split; [done |]. split; eauto.
Qed.

Lemma release bound w d :
  cooling w d ->
  eligible first bound (Timer 0 d Release) = true ->
  let w' := throttle_advance env bound w in
  open w' /\ invoked w' = invoked w.
Proof.
  intros [Hc [h Hp]] He. unfold throttle_advance.
  erewrite advance_single by exact Hp.
  replace (eligible _ _ _) with true by (rewrite <- He; done).
  done.
Qed.

Lemma deliver_cooling tc w d :
  cooling w d ->
  let w' := throttle_deliver env func limit w tc in
  if suppressed first (Some d) tc.1
  then cooling w' d /\ invoked w' = invoked w
  else invoked w' = invoked w ++ [throttled_invocation tc] /\
       match func (Some (call_this tc.2)) (call_args tc.2) with
       | None => cooling w' (tc.1 + limit)
       | Some _ => open w'
       end.
Proof.
  intros Hw. destruct (suppressed _ _ _) eqn:Hs.
  - pose proof Hw as [Hc [h Hp]].
    unfold throttle_deliver, deliver.
    erewrite advance_single by exact Hp.
    replace (eligible _ _ _) with false.
    + unfold host_runs. rewrite throttled_closed by (simpl; by rewrite Hc).
      split; [split |]; eauto.
    + simpl in *. destruct first; symmetry; lia.
  - destruct (release (Some tc.1) w d Hw) as [Ho Hi].
    { simpl in *. destruct first; lia. }
    pose proof (deliver_open tc _ Ho) as Hd.
    unfold throttle_deliver, deliver, throttle_advance in *.
    rewrite advance_idle in Hd by apply Ho.
    by rewrite Hi in Hd.
Qed.

Lemma drain_at_rest w free_at :
  at_rest w free_at ->
  let w' := throttle_advance env None w in
  pending (clk w') = [] /\ invoked w' = invoked w.
Proof.
  destruct free_at as [d |]; simpl; intros Hw.
  - destruct (release None w d Hw) as [[_ ?] ?]; done.
  - destruct Hw as [_ Hp]. unfold throttle_advance. by rewrite advance_idle.
Qed.

Lemma fold_leading_edge calls : forall w free_at,
  at_rest w free_at -> Forall (returns func) calls.*2 ->
  let w' := throttle_advance env None
              (foldl (throttle_deliver env func limit) w calls) in
  pending (clk w') = [] /\
  invoked w' = invoked w ++ leading_edge first limit free_at calls.
Proof.
  induction calls as [| tc calls IH]; intros w free_at Hw Hr.
  - simpl. rewrite app_nil_r. by eapply drain_at_rest.
  - apply Forall_cons in Hr as [Hr Hrs]. simpl. unfold returns in Hr.
    destruct free_at as [d |]; simpl in Hw.
    + pose proof (deliver_cooling tc w d Hw) as Hd. simpl in Hd.
      simpl. destruct (if first then _ else _).
      * destruct Hd as [Hw' Hi'].
        destruct (IH _ (Some d) Hw' Hrs) as [? Hi]. split; [done | congruence].
      * destruct Hd as [Hi' Hw']. rewrite Hr in Hw'.
        destruct (IH _ (Some (tc.1 + limit)%Z) Hw' Hrs) as [? Hi].
        split; [done |]. rewrite Hi, Hi', <- app_assoc. done.
    + destruct (deliver_open tc w Hw) as [Hi' Hw']. rewrite Hr in Hw'.
      destruct (IH _ (Some (tc.1 + limit)%Z) Hw' Hrs) as [? Hi].
      split; [done |]. rewrite Hi, Hi', <- app_assoc. done.
Qed.

Lemma two_calls c0 c1 :
  let w := throttle_run env func limit [(0%Z, c0); ((limit + 1)%Z, c1)] in
  invoked w = [throttled_invocation (0%Z, c0);
               throttled_invocation ((limit + 1)%Z, c1)].
Proof.
  intros w.
  destruct (deliver_open (0%Z, c0) throttle) as [Hi0 Hw0]; [done |].
  set (w0 := throttle_deliver env func limit throttle (0%Z, c0)) in *.
  assert (w = throttle_advance env None
                (throttle_deliver env func limit w0 ((limit + 1)%Z, c1))) as ->
    by reflexivity.
  assert (exists fa, at_rest (throttle_deliver env func limit w0 ((limit + 1)%Z, c1)) fa /\
          invoked (throttle_deliver env func limit w0 ((limit + 1)%Z, c1)) =
            invoked w0 ++ [throttled_invocation ((limit + 1)%Z, c1)]) as (fa & Hw1 & Hi1).
  { simpl in Hw0. destruct (func (Some (call_this c0)) (call_args c0)).
    - destruct (deliver_open ((limit + 1)%Z, c1) w0 Hw0) as [Hi Hw]. simpl in Hw.
      destruct (func (Some (call_this c1)) (call_args c1));
        [exists None | exists (Some (limit + 1 + limit)%Z)]; done.
    - pose proof (deliver_cooling ((limit + 1)%Z, c1) w0 _ Hw0) as Hd.
      replace (suppressed _ _ _) with false in Hd
        by (simpl; destruct first; symmetry; lia).
      destruct Hd as [Hi Hw]. simpl in Hw.
      destruct (func (Some (call_this c1)) (call_args c1));
        [exists None | exists (Some (limit + 1 + limit)%Z)]; done. }
  destruct (drain_at_rest _ fa Hw1) as [_ Hi].
  rewrite Hi, Hi1, Hi0. reflexivity.
Qed.
End ThrottleTimed.


(** C2, as the code has it. If the action returns normally when the first
    of N calls invokes it, and the other calls arrive less than [limit]
    after the first, the action runs exactly once: at the instant of the
    first call, with that call's receiver and arguments; the other calls
    are dropped, and nothing is run for them later. This holds whether or
    not the host has timers, for a [limit] below 2^31, which [setTimeout]
    takes as it is. (The action is a function of the call alone: it does
    not call the throttled callable itself.) *)
Theorem throttle_window_fires_first {Ctx Args E} (env : host)
    (func : action Ctx Args E) (limit : Z)
    (tc : Z * call Ctx Args) (rest : list (Z * call Ctx Args)) :
  (limit < 2 ^ 31)%Z ->
  returns func tc.2 ->
  Forall (within limit tc.1) rest.*1 ->
  let w := throttle_run env func limit (tc :: rest) in
  invoked w = [throttled_invocation tc] /\ pending (clk w) = [].
Proof.
  intros Hsmall Hr Hts w.
  destruct (first_call_closes env func limit tc throttle) as [Hc Hi]; [done | done |].
  destruct (fold_closed env func limit rest _ _ Hc) as [Hc' Hi'].
  { eapply Forall_impl; [exact Hts |]. unfold within. intros t ?. simpl in *.
    rewrite to_int32_small by lia. lia. }
  destruct (drain_closed env _ _ Hc') as [Hp Hi''].
  split; [| exact Hp].
  unfold w, throttle_run, run. simpl.
  unfold throttle_advance, throttle_deliver in *.
  rewrite Hi'', Hi', Hi. reflexivity.
Qed.

(** C2 as stated fails when the action throws: the exception leaves the
    wrapper before [inThrottle] is set, so the call that follows 5 time
    units later, well inside a window of 16, runs the action again. *)
Lemma throttle_window_throwing_action :
  Forall (within 16 0) [(0%Z, on_window 1); (5%Z, on_window 2)].*1 /\
  invoked (throttle_run browser failing 16 [(0%Z, on_window 1); (5%Z, on_window 2)])
  = [Invocation 0 (Some "window") 1; Invocation 5 (Some "window") 2] /\
  invoked (throttle_run browser failing 16 [(0%Z, on_window 1); (5%Z, on_window 2)])
  <> [throttled_invocation (0%Z, on_window 1)].
Proof.
  split; [| split].
  - repeat constructor; unfold within; simpl; lia.
  - reflexivity.
  - discriminate.
Qed.

(** C4, as the code has it. Calls at the instants [0] and [limit + 1] make
    the action run exactly twice, each time at the instant of the call and
    with its receiver and arguments, whatever the action does. More
    generally, as long as the action returns normally, the invocations are
    those of leading-edge throttling: a call outside a cooldown runs the
    action at once and starts a cooldown of [limit], a call inside one is
    dropped. [limit] is a delay that [setTimeout] takes as it is, from 0
    to 2^31 - 1. *)
Theorem throttle_leading_edge {Ctx Args E} (first io : bool)
    (func : action Ctx Args E) (limit : Z) :
  (0 <= limit < 2 ^ 31)%Z ->
  (forall c0 c1,
     invoked (throttle_run (timed_host first io) func limit
                           [(0%Z, c0); ((limit + 1)%Z, c1)])
     = [throttled_invocation (0%Z, c0); throttled_invocation ((limit + 1)%Z, c1)]) /\
  (forall calls,
     Forall (returns func) calls.*2 ->
     let w := throttle_run (timed_host first io) func limit calls in
     invoked w = leading_edge first limit None calls /\ pending (clk w) = []).
Proof.
  intros Hl. split.
  - intros c0 c1. by apply two_calls.
  - intros calls Hr.
    destruct (fold_leading_edge first io func limit Hl calls throttle None)
      as [Hp Hi]; done.
Qed.

(** C4 as stated fails when the action throws: no cooldown starts, and
    the calls at 5 and 10 run the action as well. *)
Lemma throttle_example_throwing_action :
  invoked (throttle_run browser failing 16
             [(0%Z, on_window 1); (5%Z, on_window 2);
              (10%Z, on_window 3); (20%Z, on_window 4)])
  = [Invocation 0 (Some "window") 1; Invocation 5 (Some "window") 2;
     Invocation 10 (Some "window") 3; Invocation 20 (Some "window") 4] /\
  invoked (throttle_run browser failing 16
             [(0%Z, on_window 1); (5%Z, on_window 2);
              (10%Z, on_window 3); (20%Z, on_window 4)])
  <> [throttled_invocation (0%Z, on_window 1);
      throttled_invocation (20%Z, on_window 4)].
Proof. split; [reflexivity | discriminate]. Qed.

(** The scenario of the specification, for an action that returns:
    [throttle(fn, 16)] called at 0, 5, 10 and 20. *)
Example throttle_scenario (first io : bool) :
  invoked (throttle_run (timed_host first io) quiet 16
             [(0%Z, on_window 1); (5%Z, on_window 2);
              (10%Z, on_window 3); (20%Z, on_window 4)])
  = [Invocation 0 (Some "window") 1; Invocation 20 (Some "window") 4].
Proof. destruct first, io; reflexivity. Qed.

(** The scenario of the specification: [debounce(fn, 100)] called at 0, 30
    and 60, whether the action returns or throws. *)
Example debounce_scenario (first io : bool) (fn : action string nat string) :
  invoked (debounce_run (timed_host first io) fn 100
             [(0%Z, on_window 1); (30%Z, on_window 2); (60%Z, on_window 3)])
  = [Invocation 160 None 3].
Proof.
  destruct first, io; unfold debounce_run, run; simpl;
    unfold debounce_deliver, deliver, advance, host_runs; simpl;
    unfold later, bind, call_action; simpl; destruct (fn None 3); reflexivity.
Qed.


(** ** Guarded queries *)

(** C10. For every selector string, [safeQuerySelector] and
    [safeQuerySelectorAll] return normally: the result of the query,
    with the page untouched, when the query returns, and [null]
    (respectively an empty array), after a warning on the console, when
    the query throws. *)
Theorem safe_queries_never_throw {E} (doc : document E) (selector : string)
    (p : page E) :
  safeQuerySelector doc selector p =
    match querySelector doc selector with
    | Normal r => (Normal r, p)
    | Abrupt _ => (Normal None, warned ("Error selecting element: " +:+ selector) p)
    end /\
  safeQuerySelectorAll doc selector p =
    match querySelectorAll doc selector with
    | Normal r => (Normal r, p)
    | Abrupt _ => (Normal [], warned ("Error selecting elements: " +:+ selector) p)
    end /\
  is_normal (safeQuerySelector doc selector p).1 = true /\
  is_normal (safeQuerySelectorAll doc selector p).1 = true.
Proof.
  unfold safeQuerySelector, safeQuerySelectorAll, try_catch, host_query.
  destruct (querySelector doc selector), (querySelectorAll doc selector); done.
Qed.

(** ** Missing timers *)

(** C8 as stated fails: in a host without timers the very first call of
    a debounced callable throws a [ReferenceError]. *)
Lemma debounce_untimed_throws :
  (executedFunction untimed 100 (on_window 1) (debounce (E := string))).1
  = Abrupt (ReferenceError "clearTimeout") /\
  is_normal
    (executedFunction untimed 100 (on_window 1) (debounce (E := string))).1
  = false.
Proof. split; reflexivity. Qed.

(** C8, as the code has it. In a host without timers nothing is detected.
    Every call of a debounced callable throws a [ReferenceError] and
    changes nothing, so the action never runs. A call of a throttled
    callable outside a cooldown runs the action and, if the action
    returns, sets [inThrottle] and then throws a [ReferenceError]; every
    call after that returns normally and is dropped. *)
Theorem untimed_host_is_not_detected {Ctx Args E} (env : host)
    (func : action Ctx Args E) (delay : Z) :
  has_timers env = false ->
  (forall (c : call Ctx Args) (w : debounce_world Ctx Args E),
     executedFunction env delay c w
     = (Abrupt (ReferenceError "clearTimeout"), w)) /\
  (forall calls, invoked (debounce_run env func delay calls) = []) /\
  (forall (c : call Ctx Args) (w : throttle_world Ctx Args E),
     truthy (captured w) = false -> returns func c ->
     throttled env func delay c w
     = (Abrupt (ReferenceError "setTimeout"),
        World (clk w) (Some true)
              (invoked w ++ [Invocation (now (clk w)) (Some (call_this c))
                                        (call_args c)])
              (uncaught w))) /\
  (forall (c : call Ctx Args) (w : throttle_world Ctx Args E),
     truthy (captured w) = true ->
     throttled env func delay c w = (Normal tt, w)).
Proof.
  intros He. split_and!.
  - intros c w. unfold executedFunction, bind, read, clearTimeout.
    rewrite He. reflexivity.
  - intros calls. unfold debounce_run, run.
    destruct (untimed_fold env func delay calls debounce He) as [Hp Hi]; [done |].
    fold (debounce_advance env func).
    unfold debounce_advance. rewrite advance_idle by exact Hp. exact Hi.
  - intros c w Hc Hr. rewrite throttled_returns by done. by rewrite He.
  - intros c w Hc. by apply throttled_closed.
Qed.

(** ** The reveal trigger *)

Section PageFacts.
Context {E : Type}.
Implicit Types (p : page E) (es : list entry).

Lemma fired_unique (l : list nat) (el : nat) :
NoDup l -> el ∈ l -> length (filter (fun x => x = el) l) = 1.
Proof.
induction 1 as [| x l Hx Hl IH]; intros Hin; [by apply elem_of_nil in Hin |].
apply elem_of_cons in Hin as [-> | Hin].
- rewrite filter_cons_True by done. simpl. f_equal.
  rewrite (elem_of_nil_inv (filter (fun y => y = x) l)); [done |].
  intros y [-> ?]%list_elem_of_filter. done.
- rewrite filter_cons_False; [by apply IH |]. intros ->. done.
Qed.

Lemma take_entries_watched fr o e :
e ∈ take_entries fr o -> target e ∈ targets o.
Proof.
unfold take_entries. intros (el & Hel & He)%list_elem_of_omap.
destruct (fr el); simplify_eq/=. done.
Qed.

Lemma take_entries_NoDup fr o :
NoDup (targets o) -> NoDup (target <$> take_entries fr o).
Proof.
unfold take_entries. induction 1 as [| el l Hel Hl IH]; simpl; [constructor |].
destruct (fr el) as [r |]; simpl; [| done].
constructor; [| done].
intros (e & He & Hin)%list_elem_of_fmap.
apply list_elem_of_omap in Hin as (el' & Hel' & Hr).
destruct (fr el'); simplify_eq/=. done.
Qed.

(** The reveal action of the page returns normally and touches elements
  only. *)
Lemma reveal_normal el p :
exists els, reveal el p =
  (Normal tt, Page els (console p) (observer p) (revealed p) (page_uncaught p)).
Proof. unfold reveal, bind, set_style, classList_add. simpl. eauto. Qed.

Lemma observer_callback_cons onReveal e es p :
observer_callback onReveal (e :: es) p =
  match (if isIntersecting e
         then mark_revealed (target e) ;;; onReveal (target e) ;;;
              unobserve (target e)
         else ret tt) p with
  | (Normal _, p') => observer_callback onReveal es p'
  | (Abrupt x, p') => (Abrupt x, p')
  end.
Proof. reflexivity. Qed.

Lemma observer_callback_app onReveal (pre post : list entry) p :
  observer_callback onReveal (pre ++ post) p =
    match observer_callback onReveal pre p with
    | (Normal _, p') => observer_callback onReveal post p'
    | (Abrupt x, p') => (Abrupt x, p')
    end.
Proof.
  revert p. induction pre as [| e pre IH]; intros p; [done |].
  cbn [app]. rewrite !observer_callback_cons.
  destruct ((if isIntersecting e
             then mark_revealed (target e) ;;; onReveal (target e) ;;;
                  unobserve (target e)
             else ret tt) p) as [[[] | x] p1]; [apply IH | done].
Qed.

(** One intersecting entry: the element is marked, restyled and no
  longer watched. *)
Lemma reveal_step el p :
exists els,
  (mark_revealed el ;;; reveal el ;;; unobserve el) p =
  (Normal tt,
   Page els (console p)
        ((fun o => Observer (threshold o) (rootMargin o)
                     (filter (fun x => x ≠ el) (targets o))) <$> observer p)
        (revealed p ++ [el]) (page_uncaught p)).
Proof.
unfold reveal, bind, mark_revealed, set_style, classList_add, unobserve,
  with_observer.
simpl. eauto.
Qed.

Lemma scroll_callback_one_shot es : forall p,
one_shot p -> NoDup (target <$> es) ->
(forall e, e ∈ es -> target e ∉ revealed p) ->
exists p', scroll_callback es p = (Normal tt, p') /\
  one_shot p' /\ revealed p `prefix_of` revealed p' /\
  (forall el, el ∈ watching p' -> el ∈ watching p) /\
  page_uncaught p' = page_uncaught p.
Proof.
induction es as [| e es IH]; intros p Hp Hnd Hfresh.
{ exists p. by split_and!. }
apply NoDup_cons in Hnd as [He Hnd]. simpl in He.
unfold scroll_callback in *. rewrite observer_callback_cons.
destruct (isIntersecting e) eqn:Hi.
- destruct (reveal_step (target e) p) as [els ->].
  set (q := Page _ _ _ _ _).
  destruct Hp as (Hr & Hw & Hdis).
  destruct (IH q) as (p' & Heq & Hp' & Hpre & Hsub & Hunc).
  + subst q. unfold one_shot, watching. simpl. split_and!.
    * apply NoDup_app. split_and!; [done | | apply NoDup_singleton].
      intros x Hx ->%list_elem_of_singleton.
      apply (Hfresh e); [left | done].
    * unfold watching in Hw. destruct (observer p); simpl in *; [| done].
      by apply NoDup_filter.
    * intros el [Hel | ->%list_elem_of_singleton]%elem_of_app.
      -- specialize (Hdis el Hel). unfold watching in Hdis.
         destruct (observer p); simpl in *; [| by apply not_elem_of_nil].
         rewrite list_elem_of_filter. by intros [_ ?].
      -- destruct (observer p); simpl; [| by apply not_elem_of_nil].
         rewrite list_elem_of_filter. by intros [? _].
  + done.
  + intros e' He'. subst q. simpl.
    intros [Hin | Hsame%list_elem_of_singleton]%elem_of_app.
    * apply (Hfresh e'); [by right | done].
    * apply He. rewrite <- Hsame. apply list_elem_of_fmap. eauto.
  + exists p'. rewrite Heq. split_and!; try done.
    * etrans; [| exact Hpre]. subst q. simpl. by apply prefix_app_r.
    * intros el Hel. specialize (Hsub el Hel). subst q.
      unfold watching in *. simpl in *.
      destruct (observer p); simpl in *; [| done].
      apply list_elem_of_filter in Hsub. by destruct Hsub.
- unfold ret at 1.
  apply IH; [done | done |]. intros e' He'. apply Hfresh. by right.
Qed.

Lemma notify_one_shot p fr :
one_shot p ->
let p' := notify scroll_callback p fr in
one_shot p' /\ revealed p `prefix_of` revealed p' /\
(forall el, el ∈ watching p' -> el ∈ watching p).
Proof.
intros Hp. unfold notify.
destruct (observer p) as [o |] eqn:Ho; [| done].
destruct (take_entries fr o) as [| e es] eqn:Hes; [done |].
destruct (scroll_callback_one_shot (e :: es) p Hp)
  as (p' & Heq & Hp' & Hpre & Hsub & _).
- rewrite <- Hes. apply take_entries_NoDup.
  destruct Hp as (_ & Hw & _). unfold watching in Hw. by rewrite Ho in Hw.
- intros e' He'. rewrite <- Hes in He'. apply take_entries_watched in He'.
  destruct Hp as (_ & _ & Hdis). intros Hin. apply (Hdis _ Hin).
  unfold watching. by rewrite Ho.
- simpl. rewrite Heq. done.
Qed.

Lemma frames_one_shot frames : forall p,
one_shot p ->
let p' := foldl (notify scroll_callback) p frames in
one_shot p' /\ revealed p `prefix_of` revealed p' /\
(forall el, el ∈ watching p' -> el ∈ watching p).
Proof.
induction frames as [| fr frames IH]; intros p Hp; [done |].
simpl. destruct (notify_one_shot p fr Hp) as (Hp1 & Hpre1 & Hsub1).
destruct (IH _ Hp1) as (Hp2 & Hpre2 & Hsub2).
split_and!; [done | by etrans |].
intros el Hel. by apply Hsub1, Hsub2.
Qed.

Lemma forEach_cons {A} (f : A -> js E (page E) unit) a l p :
forEach (a :: l) f p =
  match f a p with
  | (Normal _, p') => forEach l f p'
  | (Abrupt x, p') => (Abrupt x, p')
  end.
Proof. reflexivity. Qed.

Lemma conceal_and_observe_step el p :
exists els,
  conceal_and_observe el p =
  (Normal tt,
   Page els (console p)
        ((fun o => Observer (threshold o) (rootMargin o)
                     (if decide (el ∈ targets o) then targets o
                      else targets o ++ [el])) <$> observer p)
        (revealed p) (page_uncaught p)).
Proof.
unfold conceal_and_observe, bind, set_style, observe, with_observer.
simpl. eauto.
Qed.

Lemma setup_one_shot (els : list nat) : forall p,
NoDup (watching p) ->
exists p',
  forEach els conceal_and_observe p = (Normal tt, p') /\
  NoDup (watching p') /\ revealed p' = revealed p.
Proof.
induction els as [| el els IH]; intros p Hp; [by exists p |].
rewrite forEach_cons.
destruct (conceal_and_observe_step el p) as [elems ->].
set (q := Page _ _ _ _ _).
destruct (IH q) as (p' & Heq & Hnd & Hr).
- subst q. unfold watching in *. simpl.
  destruct (observer p) as [o |]; simpl in *; [| constructor].
  case_decide; [done |].
  apply NoDup_app. split_and!; [done | | apply NoDup_singleton].
  by intros x Hx ->%list_elem_of_singleton.
- exists p'. by rewrite Heq.
Qed.

Lemma initScrollAnimations_observing (doc : document E) env p :
has_IntersectionObserver env = true ->
initScrollAnimations doc env p =
  let q := with_observer (Some (Observer (1 # 10) "0px 0px -50px 0px" [])) p in
  match querySelectorAll doc animated_selector with
  | Normal els => forEach els conceal_and_observe q
  | Abrupt _ =>
      (Normal tt, warned ("Error selecting elements: " +:+ animated_selector) q)
  end.
Proof.
intros He. unfold initScrollAnimations. rewrite He. simpl.
unfold bind, new_IntersectionObserver, safeQuerySelectorAll, try_catch,
  host_query.
simpl. destruct (querySelectorAll doc animated_selector); reflexivity.
Qed.

Lemma init_one_shot (doc : document E) env (elems : gmap nat element) :
let p := (initScrollAnimations doc env (page0 elems)).2 in
one_shot p /\ revealed p = [].
Proof.
assert (forall p, NoDup (watching p) -> revealed p = [] ->
                  one_shot p /\ revealed p = []) as Hfresh.
{ intros p Hw Hr. split; [| done]. unfold one_shot. rewrite Hr.
  split_and!; [constructor | done |]. intros el Hel. by apply elem_of_nil in Hel. }
destruct (has_IntersectionObserver env) eqn:He.
- rewrite initScrollAnimations_observing by done. simpl.
  destruct (querySelectorAll doc animated_selector) as [els | x].
  + destruct (setup_one_shot els
                (with_observer (Some (Observer (1 # 10) "0px 0px -50px 0px" []))
                               (page0 elems))) as (p' & Heq & Hnd & Hr).
    * unfold watching. simpl. constructor.
    * rewrite Heq. simpl. by apply Hfresh.
  + simpl. apply Hfresh; [| done]. unfold watching. simpl. constructor.
- unfold initScrollAnimations. rewrite He. simpl.
  apply Hfresh; [| done]. unfold watching. simpl. constructor.
Qed.

Lemma notify_unobserved (cb : list entry -> js E (page E) unit) frames : forall p,
observer p = None -> foldl (notify cb) p frames = p.
Proof.
induction frames as [| fr frames IH]; intros p Ho; [done |].
simpl. unfold notify at 2. rewrite Ho. by apply IH.
Qed.
End PageFacts.

(** C3. Once the reveal action has fired for an element, whatever frames
    follow (the element's visible fraction may drop below the threshold
    and rise above it again), the action has fired for it exactly once
    and the element is not under observation: a triggered element never
    becomes pending again. *)
Theorem reveal_fires_once {E} (doc : document E) (env : host)
    (elems : gmap nat element) (frames more : list frame) (el : nat) :
  let p := scroll_page doc env (page0 elems) frames in
  let p' := scroll_page doc env (page0 elems) (frames ++ more) in
  el ∈ revealed p ->
  fired p' el = 1 /\ el ∉ watching p'.
Proof.
  intros p p' Hel.
  destruct (init_one_shot doc env elems) as [H0 _].
  destruct (frames_one_shot frames _ H0) as (Hp & _ & _).
  destruct (frames_one_shot more _ Hp) as (Hp' & Hpre & _).
  fold (scroll_page doc env (page0 elems) frames) in Hp, Hp', Hpre. fold p in Hp, Hp', Hpre.
  assert (p' = foldl (notify scroll_callback) p more) as ->.
  { unfold p', p, scroll_page. by rewrite foldl_app. }
  assert (el ∈ revealed (foldl (notify scroll_callback) p more)) as Hin.
  { destruct Hpre as [k ->]. apply elem_of_app. by left. }
  destruct Hp' as (Hnd & _ & Hdis). split; [| by apply Hdis].
  by apply fired_unique.
Qed.

(** C6. In a host without [IntersectionObserver], [initScrollAnimations]
    returns normally after a warning on the console and does nothing
    else: no observer exists, no element is touched or watched, and the
    reveal action never fires, whatever frames follow. *)
Theorem blind_host_observes_nothing {E} (doc : document E) (env : host)
    (elems : gmap nat element) (p : page E) (frames : list frame) :
  has_IntersectionObserver env = false ->
  initScrollAnimations doc env p
  = (Normal tt, warned "Intersection Observer not supported" p) /\
  let p' := scroll_page doc env (page0 elems) frames in
  observer p' = None /\ watching p' = [] /\ revealed p' = [] /\
  elements p' = elems /\ page_uncaught p' = [].
Proof.
  intros He. unfold scroll_page, initScrollAnimations. rewrite He. simpl.
  split; [done |].
  rewrite notify_unobserved by done. done.
Qed.


(** The scenario of the specification: of two observed cards only the
    first reaches the threshold 0.1, then drops below it and rises again;
    the reveal action fires once, for the first card, and the second card
    stays under observation. *)
Example reveal_scenario :
  let p := scroll_page two_cards browser (page0 bare_cards) card1_comes_and_goes in
  revealed p = [1] /\ watching p = [2] /\
  style <$> elements p !! 1
  = Some {[ "opacity" := "1"; "transform" := "translateY(0)";
            "transition" := "opacity 0.6s ease, transform 0.6s ease" ]} /\
  classList <$> elements p !! 1 = Some ["animated"] /\
  classList <$> elements p !! 2 = Some [].
Proof. vm_compute. done. Qed.

(** ** Exceptions of the wrapped action *)

(** C9. An exception thrown by the wrapped action is not caught on the
    way: the scheduled callback [later] of [debounce], the callable that
    [throttle] returns, and the notification callback of the observer
    each complete with the very exception the action threw, which so
    reaches the host that invoked them. For the observer this holds at
    whatever entry of the batch the reveal action throws, once the
    entries before it have been handled normally. *)
Theorem action_exceptions_propagate {Ctx Args E} (env : host) (first io : bool)
    (func : action Ctx Args E) (delay : Z) (e : E) :
  (forall (args : Args) (w : debounce_world Ctx Args E),
     func None args = Some e ->
     (later (timed_host first io) func args w).1 = Abrupt (Thrown e) /\
     uncaught (host_runs (debounce_exec (timed_host first io) func (Later args)) w)
     = uncaught w ++ [Thrown e]) /\
  (forall (c : call Ctx Args) (w : throttle_world Ctx Args E),
     truthy (captured w) = false ->
     func (Some (call_this c)) (call_args c) = Some e ->
     (throttled env func delay c w).1 = Abrupt (Thrown e) /\
     uncaught (host_runs (throttled env func delay c) w)
     = uncaught w ++ [Thrown e]) /\
  (forall (onReveal : nat -> js E (page E) unit) (pre post : list entry)
          (en : entry) (p p1 p' : page E) (x : error E),
     observer_callback onReveal pre p = (Normal tt, p1) ->
     isIntersecting en = true ->
     onReveal (target en) (mark_revealed (target en) p1).2 = (Abrupt x, p') ->
     observer_callback onReveal (pre ++ en :: post) p = (Abrupt x, p')).
Proof.
  split_and!.
  - intros args w He.
    unfold host_runs, debounce_exec, later, bind, read, clearTimeout, call_action.
    simpl. rewrite He. done.
  - intros c w Hc He. unfold host_runs.
    rewrite (throttled_throws env func delay c w e Hc He). done.
  - intros onReveal pre post en p p1 p' x Hpre Hen Hthrow.
    rewrite observer_callback_app, Hpre, observer_callback_cons, Hen.
    unfold bind at 1. simpl. unfold bind at 1.
    simpl in Hthrow. by rewrite Hthrow.
Qed.

(** A notification whose reveal action throws: the host gets the
    exception, and the element, never unobserved, is revealed again in
    the next frame. *)
Example failing_reveal_is_reported :
  let p0 := with_observer (Some (Observer (1 # 10) "0px" [1])) (page0 bare_cards) in
  let p := foldl (notify (observer_callback failing_reveal)) p0
                 [card1_shows (1 # 2); card1_shows (1 # 2)] in
  page_uncaught p = [Thrown "boom"; Thrown "boom"] /\
  revealed p = [1; 1] /\ watching p = [1].
Proof. vm_compute. done. Qed.

(** ** The theorems at sample inputs *)


Lemma debounce_spaced_fires_each_sample :
  let w := debounce_run browser quiet 100
             [(0%Z, on_window 1); (150%Z, on_window 2); (400%Z, on_window 3)] in
  invoked w = [Invocation 100 None 1; Invocation 250 None 2; Invocation 500 None 3]
  /\ pending (clk w) = [].
Proof.
  apply (debounce_spaced_fires_each true true quiet 100
           [(0%Z, on_window 1); (150%Z, on_window 2); (400%Z, on_window 3)]).
  - lia.
  - simpl. unfold beyond. lia.
Defined.

Lemma throttle_window_fires_first_sample :
  let w := throttle_run browser quiet 16
             [(0%Z, on_window 1); (5%Z, on_window 2); (10%Z, on_window 3)] in
  invoked w = [Invocation 0 (Some "window") 1] /\ pending (clk w) = [].
Proof.
  apply (throttle_window_fires_first browser quiet 16 (0%Z, on_window 1)
           [(5%Z, on_window 2); (10%Z, on_window 3)]).
  - lia.
  - reflexivity.
  - repeat constructor; unfold within; simpl; lia.
Defined.

Lemma throttle_leading_edge_sample :
  (forall c0 c1 : call string nat,
     invoked (throttle_run browser quiet 16 [(0%Z, c0); (17%Z, c1)])
     = [throttled_invocation (0%Z, c0); throttled_invocation (17%Z, c1)]) /\
  (forall calls : list (Z * call string nat),
     Forall (returns quiet) calls.*2 ->
     let w := throttle_run browser quiet 16 calls in
     invoked w = leading_edge true 16 None calls /\ pending (clk w) = []).
Proof.
  apply (throttle_leading_edge true true quiet 16). lia.
Defined.

Lemma untimed_host_is_not_detected_sample :
  (forall (c : call string nat) (w : debounce_world string nat string),
     executedFunction untimed 100 c w
     = (Abrupt (ReferenceError "clearTimeout"), w)) /\
  (forall calls, invoked (debounce_run untimed quiet 100 calls) = []) /\
  (forall (c : call string nat) (w : throttle_world string nat string),
     truthy (captured w) = false -> returns quiet c ->
     throttled untimed quiet 100 c w
     = (Abrupt (ReferenceError "setTimeout"),
        World (clk w) (Some true)
              (invoked w ++ [Invocation (now (clk w)) (Some (call_this c))
                                        (call_args c)])
              (uncaught w))) /\
  (forall (c : call string nat) (w : throttle_world string nat string),
     truthy (captured w) = true ->
     throttled untimed quiet 100 c w = (Normal tt, w)).
Proof.
  apply (untimed_host_is_not_detected untimed quiet 100). reflexivity.
Defined.

Lemma reveal_fires_once_sample :
  let p' := scroll_page two_cards browser (page0 bare_cards)
              ([card1_shows (1 # 20); card1_shows (1 # 10)]
               ++ [card1_shows (0 # 1); card1_shows (1 # 2)]) in
  fired p' 1 = 1 /\ 1 ∉ watching p'.
Proof.
  apply (reveal_fires_once two_cards browser bare_cards
           [card1_shows (1 # 20); card1_shows (1 # 10)]
           [card1_shows (0 # 1); card1_shows (1 # 2)] 1).
  vm_compute. constructor.
Defined.

Lemma blind_host_observes_nothing_sample :
  initScrollAnimations two_cards blind (page0 bare_cards)
  = (Normal tt, warned "Intersection Observer not supported" (page0 bare_cards)) /\
  let p' := scroll_page two_cards blind (page0 bare_cards) card1_comes_and_goes in
  observer p' = None /\ watching p' = [] /\ revealed p' = [] /\
  elements p' = bare_cards /\ page_uncaught p' = [].
Proof.
  apply (blind_host_observes_nothing two_cards blind bare_cards (page0 bare_cards)
           card1_comes_and_goes).
  reflexivity.
Defined.

(** * Further properties of the script *)

(** ** debounce, for arbitrary call sequences *)

Section DebounceMore.
Context {Ctx Args E : Type}.
Implicit Types (w : debounce_world Ctx Args E) (tc : Z * call Ctx Args).
Variables first io : bool.
Variable func : action Ctx Args E.
Variable wait : Z.
Hypothesis wait_nonneg : (0 <= wait < 2 ^ 31)%Z.
Local Abbreviation env := (timed_host first io).

Lemma deliver_armed tc tc' w :
  armed wait w tc ->
  let w' := debounce_deliver env func wait w tc' in
  armed wait w' tc' /\
  invoked w' = invoked w ++
    (if lapsed first wait tc.1 tc'.1 then [debounced_invocation wait tc] else []).
Proof.
  intros Hw. destruct (lapsed first wait tc.1 tc'.1) eqn:Hl.
  - destruct (honour first io func wait wait_nonneg (Some tc'.1) tc w Hw)
      as (Hp & Hc & Hi); [exact Hl |].
    unfold debounce_deliver, deliver. fold (debounce_advance env func).
    destruct (call_arms first io wait wait_nonneg tc'
                (debounce_advance env func (Some tc'.1) w)) as (? & ? & ?);
      [by left |].
    split; [done | congruence].
  - pose proof Hw as (h & Hk & Hc).
    unfold debounce_deliver, deliver.
    erewrite advance_single by (rewrite Hk; reflexivity).
    replace (eligible _ _ _) with false by (rewrite <- Hl; done).
    destruct (call_arms first io wait wait_nonneg tc' w) as (? & ? & ?);
      [by eapply armed_tracked |].
    rewrite app_nil_r. done.
Qed.

Lemma fold_trailing_edge rest : forall tc w,
  armed wait w tc ->
  let w' := debounce_advance env func None
              (foldl (debounce_deliver env func wait) w rest) in
  pending (clk w') = [] /\
  invoked w' = invoked w ++ trailing_edge first wait (tc :: rest).
Proof.
  induction rest as [| tc' rest IH]; intros tc w Hw.
  - destruct (honour first io func wait wait_nonneg None tc w Hw) as (? & ? & ?);
      done.
  - destruct (deliver_armed tc tc' w Hw) as [Hw' Hi'].
    destruct (IH tc' _ Hw') as [Hp Hi].
    split; [exact Hp |].
    cbn [foldl]. rewrite Hi, Hi'. rewrite <- app_assoc.
    change (trailing_edge first wait (tc :: tc' :: rest))
      with (if lapsed first wait tc.1 tc'.1
            then debounced_invocation wait tc :: trailing_edge first wait (tc' :: rest)
            else trailing_edge first wait (tc' :: rest)).
    by destruct (lapsed first wait tc.1 tc'.1).
Qed.
End DebounceMore.

(** X1. For any sequence of calls to a debounced callable, at any
    instants, the action runs for exactly those calls whose timer falls
    due before the next call arrives, and for the last call; each time
    [wait] after the call and with its arguments. [wait] is a delay that
    [setTimeout] takes as it is, from 0 to 2^31 - 1, and no call arrives
    at the very instant at which the timer of the call before it falls
    due. *)
Theorem debounce_is_trailing_edge {Ctx Args E} (first io : bool)
    (func : action Ctx Args E) (wait : Z) (calls : list (Z * call Ctx Args)) :
  (0 <= wait < 2 ^ 31)%Z ->
  spaced (fun t t' => (t + wait)%Z ≠ t') calls ->
  let w := debounce_run (timed_host first io) func wait calls in
  invoked w = trailing_edge first wait calls /\ pending (clk w) = [].
Proof.
  intros Hwait _. destruct calls as [| tc0 rest]; [done |].
  destruct (deliver_idle first io func wait Hwait tc0 debounce) as [Ha Hi]; [done |].
  destruct (fold_trailing_edge first io func wait Hwait rest tc0 _ Ha) as [Hp Hinv].
  split; [| exact Hp].
  unfold debounce_run, run. cbn [foldl].
  unfold debounce_advance, debounce_deliver in *.
  rewrite Hinv, Hi. reflexivity.
Qed.

Lemma debounce_is_trailing_edge_sample :
  let w := debounce_run browser quiet 100
             [(0%Z, on_window 1); (30%Z, on_window 2); (200%Z, on_window 3);
              (250%Z, on_window 4)] in
  invoked w = [Invocation 130 None 2; Invocation 350 None 4] /\
  pending (clk w) = [].
Proof.
  apply (debounce_is_trailing_edge true true quiet 100
           [(0%Z, on_window 1); (30%Z, on_window 2); (200%Z, on_window 3);
            (250%Z, on_window 4)]).
  - lia.
  - simpl. lia.
Defined.

(** ** throttle, further *)

Section ThrottleMore.
Context {Ctx Args E : Type}.
Implicit Types (w : throttle_world Ctx Args E) (tc : Z * call Ctx Args).
Variable env : host.
Variable func : action Ctx Args E.
Variable limit : Z.



Lemma deliver_stuck tc w :
  stuck w ->
  let w' := throttle_deliver env func limit w tc in
  stuck w' /\ invoked w' = invoked w /\ uncaught w' = uncaught w.
Proof.
  intros [Hc Hp]. unfold throttle_deliver, deliver.
  rewrite advance_idle by done. unfold host_runs.
  rewrite throttled_closed by (simpl; by rewrite Hc). done.
Qed.

Lemma fold_stuck calls : forall w,
  stuck w ->
  let w' := foldl (throttle_deliver env func limit) w calls in
  stuck w' /\ invoked w' = invoked w /\ uncaught w' = uncaught w.
Proof.
  induction calls as [| tc calls IH]; intros w Hw; [done |].
  destruct (deliver_stuck tc w Hw) as (Hw' & Hi' & Hu').
  destruct (IH _ Hw') as (Hs & Hi & Hu).
  split; [exact Hs |]. cbn [foldl]. split; congruence.
Qed.

Lemma first_call_sticks tc w :
  has_timers env = false -> open w -> returns func tc.2 ->
  let w' := throttle_deliver env func limit w tc in
  stuck w' /\ invoked w' = invoked w ++ [throttled_invocation tc] /\
  uncaught w' = uncaught w ++ [ReferenceError "setTimeout"].
Proof.
  intros He [Hc Hp] Hr. unfold throttle_deliver, deliver.
  rewrite advance_idle by done. unfold host_runs.
  rewrite throttled_returns by done. rewrite He. done.
Qed.
End ThrottleMore.

Section LeadingEdgeFacts.
Context {Ctx Args : Type}.
Variable first : bool.
Variable limit : Z.
Hypothesis limit_nonneg : (0 <= limit)%Z.


End LeadingEdgeFacts.





(** X4. In a host without timers a throttled action that returns
    normally runs for the first call only: [inThrottle] is set, the call
    ends in a [ReferenceError], and every later call, however late, is
    dropped. *)
Theorem throttle_untimed_runs_once {Ctx Args E} (env : host)
    (func : action Ctx Args E) (limit : Z)
    (tc : Z * call Ctx Args) (rest : list (Z * call Ctx Args)) :
  has_timers env = false ->
  returns func tc.2 ->
  let w := throttle_run env func limit (tc :: rest) in
  invoked w = [throttled_invocation tc] /\
  uncaught w = [ReferenceError "setTimeout"] /\
  captured w = Some true.
Proof.
  intros He Hr.
  destruct (first_call_sticks env func limit tc throttle He) as (Hs & Hi & Hu);
    [done | done |].
  destruct (fold_stuck env func limit rest _ Hs) as ([Hc Hp] & Hi' & Hu').
  unfold throttle_run, run. cbn [foldl]. fold (throttle_deliver env func limit).
  rewrite advance_idle by exact Hp.
  split_and!; [by rewrite Hi', Hi | by rewrite Hu', Hu | exact Hc].
Qed.

Lemma throttle_untimed_runs_once_sample :
  let w := throttle_run untimed quiet 16
             [(0%Z, on_window 1); (5%Z, on_window 2); (1000%Z, on_window 3)] in
  invoked w = [throttled_invocation (0%Z, on_window 1)] /\
  uncaught w = [ReferenceError "setTimeout"] /\
  captured w = Some true.
Proof.
  apply (throttle_untimed_runs_once untimed quiet 16 (0%Z, on_window 1)
           [(5%Z, on_window 2); (1000%Z, on_window 3)]).
  - reflexivity.
  - reflexivity.
Defined.

(** ** Class lists *)

Lemma elem_of_add_token tok l x : x ∈ add_token tok l <-> x = tok \/ x ∈ l.
Proof.
  unfold add_token. case_decide.
  - split; [by right | by intros [-> | ?]].
  - rewrite elem_of_app, list_elem_of_singleton. tauto.
Qed.

Lemma elem_of_remove_token tok l x : x ∈ remove_token tok l <-> x ≠ tok /\ x ∈ l.
Proof. unfold remove_token. by rewrite list_elem_of_filter. Qed.

Lemma elem_of_toggle_token tok l x :
  x ∈ toggle_token tok l <-> (x = tok /\ tok ∉ l) \/ (x ≠ tok /\ x ∈ l).
Proof.
  unfold toggle_token. case_decide as Hin.
  - rewrite elem_of_remove_token. split; [by right | ].
    by intros [[_ ?] | ?].
  - rewrite elem_of_app, list_elem_of_singleton. split.
    + intros [Hx | ->]; [right | by left]. split; [by intros -> | done].
    + intros [[-> _] | [_ ?]]; [by right | by left].
Qed.

Lemma contains_token_spec tok l : contains_token tok l = true <-> tok ∈ l.
Proof. unfold contains_token. by rewrite bool_decide_eq_true. Qed.

(** ** The mobile menu *)

Lemma toggle_flips n : menu_open (toggleMobileMenu n) <-> ~ menu_open n.
Proof.
  unfold menu_open. simpl. rewrite elem_of_toggle_token. split.
  - by intros [[_ ?] | [? _]].
  - intros ?. by left.
Qed.

Lemma toggle_coherent n : in_step n -> coherent (toggleMobileMenu n).
Proof.
  intros Hs. unfold coherent, in_step in *. simpl.
  assert (contains_token "active"
            (toggle_token "active" (hamburger_classList n))
          = negb (contains_token "active" (hamburger_classList n))) as ->.
  { apply eq_true_iff_eq. rewrite negb_true_iff, contains_token_spec.
    rewrite <- not_true_iff_false, contains_token_spec.
    apply (toggle_flips n). }
  rewrite negb_involutive. split_and!; try done.
  rewrite !elem_of_toggle_token. split.
  - intros [[_ H] | [H _]]; [left | done]. split; [done |]. by rewrite <- Hs.
  - intros [[_ H] | [H _]]; [left | done]. split; [done |]. by rewrite Hs.
Qed.

Lemma listener_toggles_or_not n l :
  nav_listener_runs n l = n \/ nav_listener_runs n l = toggleMobileMenu n.
Proof.
  destruct l as [| | h m | key]; simpl; unfold close_if_open.
  - by right.
  - destruct (contains_token _ _); [by right | by left].
  - destruct (negb h && negb m); [| by left].
    destruct (contains_token _ _); [by right | by left].
  - destruct (bool_decide _ && _); [by right | by left].
Qed.

Lemma coherent_in_step n : coherent n -> in_step n.
Proof. by intros [? _]. Qed.

Lemma listeners_keep_coherent ls : forall n,
  coherent n -> coherent (foldl nav_listener_runs n ls).
Proof.
  induction ls as [| l ls IH]; intros n Hn; [done |].
  cbn [foldl]. apply IH.
  destruct (listener_toggles_or_not n l) as [-> | ->]; [done |].
  by apply toggle_coherent, coherent_in_step.
Qed.

(** X5. If hamburger and menu agree on the class [active] when the
    listeners are registered, then after any sequence of listener runs
    they still agree, and, as soon as the menu has been toggled once,
    [aria-expanded], [aria-hidden] and the scroll lock of the body say
    what the class says. *)
Theorem menu_stays_coherent (n : mobile_nav) (ls : list nav_listener) :
  in_step n ->
  let n' := foldl nav_listener_runs n ls in
  in_step n' /\ (n' = n \/ coherent n').
Proof.
  revert n. induction ls as [| l ls IH]; intros n Hn; [by split; [| left] |].
  cbn [foldl].
  destruct (listener_toggles_or_not n l) as [-> | ->]; [by apply IH |].
  pose proof (listeners_keep_coherent ls _ (toggle_coherent n Hn)) as Hc.
  split; [by apply coherent_in_step | by right].
Qed.

Lemma menu_stays_coherent_sample :
  let n' := foldl nav_listener_runs (MobileNav ["hamburger"] ["nav-menu"] None None "")
              [HamburgerClick; DocumentClick true false; DocumentKeydown "Escape"] in
  in_step n' /\
  (n' = MobileNav ["hamburger"] ["nav-menu"] None None "" \/ coherent n').
Proof.
  apply (menu_stays_coherent (MobileNav ["hamburger"] ["nav-menu"] None None "")
           [HamburgerClick; DocumentClick true false; DocumentKeydown "Escape"]).
  unfold in_step. apply (bool_decide_unpack _). by vm_compute.
Defined.

(** X6. A click on the hamburger flips the menu. No other listener ever
    opens it: a click on a link, a click outside hamburger and menu and
    the Escape key leave it closed, and every other event leaves the
    menu as it is. *)
Theorem only_the_hamburger_opens (n : mobile_nav) (l : nav_listener) :
  (menu_open (nav_listener_runs n HamburgerClick) <-> ~ menu_open n) /\
  (l ≠ HamburgerClick ->
   (~ menu_open n -> nav_listener_runs n l = n) /\
   if closes l then ~ menu_open (nav_listener_runs n l)
   else nav_listener_runs n l = n).
Proof.
  split; [apply toggle_flips |]. intros Hl.
  assert (~ menu_open (close_if_open n)) as Hclose.
  { unfold close_if_open.
    destruct (contains_token _ _) eqn:Hc.
    - rewrite toggle_flips. intros H. apply H. by apply contains_token_spec.
    - unfold menu_open. by rewrite <- contains_token_spec, Hc. }
  assert (~ menu_open n -> close_if_open n = n) as Hsame.
  { intros Hn. unfold close_if_open.
    destruct (contains_token _ _) eqn:Hc; [| done].
    by apply contains_token_spec in Hc. }
  destruct l as [| | h m | key]; [done | | |]; simpl.
  - by split.
  - destruct (negb h && negb m); by split.
  - destruct (bool_decide (key = "Escape")); simpl; [| by split].
    change (if contains_token "active" (hamburger_classList n)
            then toggleMobileMenu n else n) with (close_if_open n).
    by split.
Qed.

Lemma only_the_hamburger_opens_sample :
  let n := MobileNav ["hamburger"; "active"] ["nav-menu"; "active"]
                     (Some "true") (Some "false") "hidden" in
  (menu_open (nav_listener_runs n HamburgerClick) <-> ~ menu_open n) /\
  (DocumentKeydown "Escape" ≠ HamburgerClick ->
   (~ menu_open n -> nav_listener_runs n (DocumentKeydown "Escape") = n) /\
   if closes (DocumentKeydown "Escape")
   then ~ menu_open (nav_listener_runs n (DocumentKeydown "Escape"))
   else nav_listener_runs n (DocumentKeydown "Escape") = n).
Proof.
  apply (only_the_hamburger_opens
           (MobileNav ["hamburger"; "active"] ["nav-menu"; "active"]
                      (Some "true") (Some "false") "hidden")
           (DocumentKeydown "Escape")).
Defined.

(** ** The active navigation link *)

Lemma current_section_app pre post y :
  current_section (pre ++ post) y =
  foldl (fun current s => if in_view y s then section_id s else current)
        (current_section pre y) post.
Proof. unfold current_section. by rewrite foldl_app. Qed.

Lemma foldl_out_of_view post y cur :
  Forall (fun s => in_view y s = false) post ->
  foldl (fun current s => if in_view y s then section_id s else current)
        cur post = cur.
Proof.
  intros H. revert cur. induction H as [| s post Hs _ IH]; intros cur; [done |].
  cbn [foldl]. rewrite Hs. apply IH.
Qed.

(** X7. The section named by [current] is the last one, in document
    order, whose band (from 200 above its top, for its height) holds the
    scroll position; when no section does, [current] is the empty
    string. *)
Theorem current_section_is_last_in_view (sections : list page_section) (y : Q) :
  (Forall (fun s => in_view y s = false) sections ->
   current_section sections y = "") /\
  (forall pre s post,
     sections = pre ++ s :: post ->
     in_view y s = true ->
     Forall (fun s' => in_view y s' = false) post ->
     current_section sections y = section_id s).
Proof.
  split.
  - intros H. by apply foldl_out_of_view.
  - intros pre s post -> Hs Hpost.
    rewrite current_section_app. cbn [foldl]. rewrite Hs.
    by apply foldl_out_of_view.
Qed.

(** X8. After [updateActiveLink] a navigation link carries the class
    [active] exactly when its [href] is ["#"] followed by [current]; its
    target and its other classes are as before. In particular, when no
    section is in view, it is the links to ["#"] that are highlighted. *)
Theorem active_links_point_to_current (sections : list page_section) (y : Q)
    (navLinks : list nav_link) :
  let links' := updateActiveLink sections y navLinks in
  Forall (fun link =>
            "active" ∈ link_classList link <->
            href link = Some ("#" +:+ current_section sections y)) links' /\
  Forall2 same_but_active navLinks links' /\
  (Forall (fun s => in_view y s = false) sections ->
   Forall (fun link => "active" ∈ link_classList link <-> href link = Some "#")
          links').
Proof.
  intros links'.
  assert (Forall (fun link =>
            "active" ∈ link_classList link <->
            href link = Some ("#" +:+ current_section sections y)) links') as Hact.
  { unfold links', updateActiveLink. apply Forall_fmap, Forall_forall.
    intros link _. simpl. case_decide as Hh.
    - rewrite elem_of_add_token. split; [done | by left].
    - rewrite elem_of_remove_token. split; [by intros [? _] | done]. }
  split_and!; [exact Hact | |].
  - unfold links', updateActiveLink. apply Forall2_fmap_r, Forall_Forall2_diag,
      Forall_forall.
    intros link _. split; [done |]. intros tok Htok. simpl.
    case_decide.
    + rewrite elem_of_add_token, elem_of_remove_token. split; [| by right].
      by intros [-> | [_ ?]].
    + rewrite elem_of_remove_token. split; [by intros [_ ?] | done].
  - intros Hnone.
    assert (current_section sections y = "") as Hcur
      by by apply foldl_out_of_view.
    by rewrite Hcur in Hact.
Qed.

(** ** The navigation bar on scroll *)

Lemma updateNavbar_scrolled y navbar :
  "scrolled" ∈ classList (updateNavbar y navbar) <-> past_fold y = true.
Proof.
  unfold updateNavbar. destruct (past_fold y); simpl.
  - rewrite elem_of_add_token. split; [done | by left].
  - rewrite elem_of_remove_token. split; [by intros [? _] | done].
Qed.

(** X9. The look of the navigation bar after an update depends on the
    scroll position of that update only, not on earlier updates: the two
    style properties, and the class [scrolled], present exactly when the
    position is beyond 100; the other classes are never touched. *)
Theorem navbar_shows_last_update (y y' : Q) (navbar : element) :
  let nb := updateNavbar y (updateNavbar y' navbar) in
  style nb = style (updateNavbar y navbar) /\
  ("scrolled" ∈ classList nb <-> past_fold y = true) /\
  (forall tok, tok ≠ "scrolled" ->
     (tok ∈ classList nb <-> tok ∈ classList navbar)).
Proof.
  intros nb. split_and!.
  - unfold nb, updateNavbar.
    destruct (past_fold y), (past_fold y'); simpl; apply map_eq; intros k;
      rewrite !lookup_insert; repeat case_decide; done.
  - apply updateNavbar_scrolled.
  - intros tok Htok. unfold nb, updateNavbar.
    destruct (past_fold y), (past_fold y'); simpl;
      repeat (rewrite elem_of_add_token || rewrite elem_of_remove_token);
      intuition congruence.
Qed.

(** X10. The scroll listener is throttled without a trailing run: of
    scroll events that arrive less than 16 after the first one, only the
    first updates the navigation bar, which then shows the scroll
    position of that first event, whatever positions the later events
    carry. *)
Theorem navbar_ignores_scrolls_in_cooldown (env : host) (navbar : element)
    (t : Z) (y : Q) (rest : list (Z * call string Q)) :
  Forall (within 16 t) rest.*1 ->
  navbar_on_scroll env navbar (scrolled_to t y :: rest) = updateNavbar y navbar.
Proof.
  intros Hts.
  destruct (first_call_closes env navbar_action 16 (scrolled_to t y) throttle)
    as [Hc Hi]; [done | done |].
  destruct (fold_closed env navbar_action 16 rest _ _ Hc) as [Hc' Hi'].
  { eapply Forall_impl; [exact Hts |]. unfold within. intros t' ?. simpl in *.
    rewrite to_int32_small by lia. lia. }
  destruct (drain_closed env _ _ Hc') as [_ Hi''].
  unfold navbar_on_scroll, throttle_run, run. cbn [foldl].
  unfold throttle_advance, throttle_deliver in *.
  rewrite Hi'', Hi', Hi. reflexivity.
Qed.

Lemma navbar_ignores_scrolls_in_cooldown_sample :
  navbar_on_scroll browser (Element ∅ ["navbar"])
    [scrolled_to 0 (0 # 1); scrolled_to 5 (150 # 1); scrolled_to 10 (400 # 1)]
  = updateNavbar (0 # 1) (Element ∅ ["navbar"]).
Proof.
  apply (navbar_ignores_scrolls_in_cooldown browser (Element ∅ ["navbar"]) 0 (0 # 1)
           [scrolled_to 5 (150 # 1); scrolled_to 10 (400 # 1)]).
  repeat constructor; unfold within; simpl; lia.
Defined.

(** ** The typing animation *)

Section TypingFacts.
Context {Char : Type}.
Variable reparse : list Char -> list Char.
Implicit Types (w : typist Char) (text : list Char).

Lemma typing_fire_at t0 text k w :
  (forall j, j <= length text -> plain reparse (take j text)) ->
  typing_at t0 text k w ->
  exists w', typing_fire reparse w = Some w' /\
    match text !! k with
    | Some _ => typing_at t0 text (S k) w'
    | None => pending (ty_clk w') = [] /\ ty_html w' = ty_html w /\
              ty_stamps w' = ty_stamps w
    end.
Proof.
  intros Hplain (Ht & Hs & Hi & Hh & Hst & Hnow & h & Hp).
  unfold typing_fire, take_due. rewrite Hp. cbn [earliest eligible].
  rewrite filter_tid_single. cbn [callback due tid].
  eexists. split; [reflexivity |].
  rewrite Ht, Hi. cbn [typing_exec]. unfold type_next.
  cbn [ty_text ty_i ty_clk ty_speed ty_html ty_stamps].
  destruct (text !! k) as [c |] eqn:Hk; [| done].
  rewrite Hs, Hh, Hst. unfold typing_at. cbn.
  rewrite Z.max_r by lia.
  pose proof (lookup_lt_Some _ _ _ Hk) as Hlt.
  split_and!; try done.
  - f_equal. rewrite <- (take_S_r _ _ _ Hk). apply Hplain. lia.
  - transitivity ((fun j => (t0 + 500 + 80 * Z.of_nat j)%Z) <$> seq 0 (S k));
      [| reflexivity].
    rewrite seq_S, fmap_app. done.
  - change (to_int32 80) with 80%Z. lia.
  - eexists. change (to_int32 80) with 80%Z. do 2 f_equal. lia.
Qed.

Lemma typing_settles t0 text : forall m k w fuel,
  (forall j, j <= length text -> plain reparse (take j text)) ->
  typing_at t0 text k w ->
  length text = m + k -> m < fuel ->
  let w' := typing_settle reparse fuel w in
  ty_html w' = Some text /\
  ty_stamps w' = (fun j => (t0 + 500 + 80 * Z.of_nat j)%Z) <$> seq 0 (length text) /\
  pending (ty_clk w') = [].
Proof.
  induction m as [| m IH]; intros k w fuel Hplain Hw Hlen Hfuel.
  - destruct fuel as [| fuel]; [lia |].
    destruct (typing_fire_at t0 text k w Hplain Hw) as (w' & Hf & Hnext).
    rewrite lookup_ge_None_2 in Hnext by lia.
    destruct Hnext as (Hp & Hh & Hst). simpl. rewrite Hf.
    assert (typing_settle reparse fuel w' = w') as ->.
    { destruct fuel; [done |]. simpl. unfold typing_fire, take_due. by rewrite Hp. }
    rewrite Hh, Hst. destruct Hw as (_ & _ & _ & -> & -> & _).
    rewrite take_ge by lia. simpl in Hlen. by subst k.
  - destruct fuel as [| fuel]; [lia |].
    destruct (typing_fire_at t0 text k w Hplain Hw) as (w' & Hf & Hnext).
    destruct (lookup_lt_is_Some_2 text k) as [c Hc]; [lia |].
    rewrite Hc in Hnext. simpl. rewrite Hf.
    apply (IH (S k)); [done | done | lia | lia].
Qed.
End TypingFacts.

(** X11. The typing animation ends and, on a title whose text survives
    assignment to [innerHTML] unchanged at every stage of the typing
    (every prefix of the text reads back as it was assigned), it types
    the title exactly. Once the page has loaded at [t0], after enough
    timers have run (one more than the title has characters, or any
    greater number) [innerHTML] reads the text, its characters were
    appended one by one, the first at [t0 + 500] and each next one 80
    later, and no timer is left. *)
Theorem typing_spells_the_title {Char} (reparse : list Char -> list Char)
    (text : list Char) (t0 : Z) (fuel : nat) :
  length text < fuel ->
  (forall j, j <= length text -> plain reparse (take j text)) ->
  let w := typing_settle reparse fuel
             (initTypingAnimation (Some text) false t0) in
  ty_html w = Some text /\
  ty_stamps w = (fun j => (t0 + 500 + 80 * Z.of_nat j)%Z) <$> seq 0 (length text) /\
  pending (ty_clk w) = [].
Proof.
  intros Hfuel Hplain. destruct fuel as [| fuel]; [lia |].
  cbn [initTypingAnimation typing_settle].
  assert (typing_fire reparse (typing_on_load t0 text) = Some
            (typeWriter reparse text 80
               (Typist (Clock (t0 + 500) 2 []) text 80 0 None []))) as ->.
  { unfold typing_fire, take_due, typing_on_load.
    change (to_int32 500) with 500%Z.
    cbn [arm snd ty_clk pending set_now clock0 now next_id app earliest eligible].
    rewrite filter_tid_single. cbn. by rewrite Z.max_r by lia. }
  pose proof (Hplain 0 ltac:(lia)) as Hnil. unfold plain in Hnil.
  rewrite take_0 in Hnil.
  destruct text as [| c text].
  - unfold typeWriter, type_next. cbn. rewrite Hnil.
    destruct fuel; done.
  - apply (typing_settles reparse t0 (c :: text) (length text) 1); [done | | | ].
    + unfold typing_at, typeWriter, type_next. cbn. rewrite Hnil. cbn.
      change (to_int32 80) with 80%Z.
      pose proof (Hplain 1 ltac:(simpl; lia)) as H1. unfold plain in H1.
      cbn in H1. rewrite take_0 in H1. rewrite H1.
      split_and!; try done.
      * f_equal. lia.
      * lia.
      * exists 2. do 2 f_equal.
    + simpl. lia.
    + simpl in Hfuel. lia.
Qed.

Lemma typing_spells_the_title_sample :
  let w := typing_settle newline_normalising 10
             (initTypingAnimation (Some [72; 105; 33]) false 1000) in
  ty_html w = Some [72; 105; 33] /\
  ty_stamps w = (fun j => (1000 + 500 + 80 * Z.of_nat j)%Z) <$> seq 0 3 /\
  pending (ty_clk w) = [].
Proof.
  apply (typing_spells_the_title newline_normalising [72; 105; 33] 1000 10).
  - simpl. lia.
  - intros j Hj. simpl in Hj.
    do 4 (destruct j as [| j]; [reflexivity |]). lia.
Defined.

(** On a title that holds a carriage return the host's parser
    intervenes: the title ends with a line feed in its place. *)
Example typing_normalises_newlines :
  ty_html (typing_settle newline_normalising 10
             (initTypingAnimation (Some [72; 13; 105]) false 1000))
  = Some [72; 10; 105].
Proof. reflexivity. Qed.

(** ** Start-up *)

Lemma in_turn_app {S E} (pre post : list (js E S unit)) (σ : S) :
  in_turn (pre ++ post) σ =
  match in_turn pre σ with
  | (Normal _, σ') => in_turn post σ'
  | (Abrupt x, σ') => (Abrupt x, σ')
  end.
Proof.
  revert σ. induction pre as [| m pre IH]; intros σ; [done |].
  cbn [in_turn app]. unfold bind.
  destruct (m σ) as [[[] | x] σ']; [apply IH | done].
Qed.

(** X12. [init] never throws. If every initialiser returns, the success
    line is logged. If one throws, the exception is reported with
    [console.error], the success line is not logged, and the initialisers
    after it are not run at all. *)
Theorem init_stops_at_first_failure {S E}
    (pre post : list (js E (booted S E) unit)) (failing_step : js E (booted S E) unit)
    (b b1 b2 : booted S E) (x : error E) :
  (forall (ms : list (js E (booted S E) unit)) b0,
     is_normal (init ms b0).1 = true) /\
  (in_turn pre b = (Normal tt, b1) ->
   init pre b =
     (Normal tt,
      Booted (boot_state b1)
             (boot_logged b1 ++ ["Portfolio initialized successfully"])
             (boot_errors b1))) /\
  (in_turn pre b = (Normal tt, b1) ->
   failing_step b1 = (Abrupt x, b2) ->
   init (pre ++ failing_step :: post) b =
     (Normal tt,
      Booted (boot_state b2) (boot_logged b2)
             (boot_errors b2 ++ [("Error initializing portfolio:", x)]))).
Proof.
  split_and!.
  - intros ms b0. unfold init, try_catch, bind.
    destruct (in_turn ms b0) as [[[] | y] b']; done.
  - intros Hpre. unfold init, try_catch, bind. by rewrite Hpre.
  - intros Hpre Hfail. unfold init, try_catch. unfold bind at 1.
    rewrite in_turn_app, Hpre. simpl. unfold bind at 1. by rewrite Hfail.
Qed.

Lemma init_stops_at_first_failure_sample :
  let b : booted nat string := Booted 0 [] [] in
  let step : js string (booted nat string) unit :=
    fun b0 => (Normal tt, Booted (S (boot_state b0)) (boot_logged b0) (boot_errors b0)) in
  let failing_step : js string (booted nat string) unit := throw (Thrown "boom") in
  (forall ms b0, is_normal (init (S := nat) (E := string) ms b0).1 = true) /\
  (in_turn [step; step] b = (Normal tt, Booted 2 [] []) ->
   init [step; step] b =
     (Normal tt, Booted 2 ([] ++ ["Portfolio initialized successfully"]) [])) /\
  (in_turn [step; step] b = (Normal tt, Booted 2 [] []) ->
   failing_step (Booted 2 [] []) = (Abrupt (Thrown "boom"), Booted 2 [] []) ->
   init ([step; step] ++ failing_step :: [step; step; step]) b =
     (Normal tt,
      Booted 2 [] ([] ++ [("Error initializing portfolio:", Thrown "boom")]))).
Proof.
  intros b step failing_step.
  apply (init_stops_at_first_failure [step; step] [step; step; step] failing_step
           b (Booted 2 [] []) (Booted 2 [] []) (Thrown "boom")).
Defined.

(** ** What a frame does to the page *)

Section FrameFacts.
Context {E : Type}.
Implicit Types (p : page E) (es : list entry) (m : gmap nat element).

Lemma filter_agree {A} (P Q : A -> Prop) `{!forall x, Decision (P x)}
      `{!forall x, Decision (Q x)} (l : list A) :
  (forall x, x ∈ l -> (P x <-> Q x)) -> filter P l = filter Q l.
Proof.
  induction l as [| a l IH]; intros Hall; [done |].
  rewrite !filter_cons.
  rewrite IH by (intros x Hx; apply Hall; by right).
  destruct (decide (P a)) as [Hp | Hp], (decide (Q a)) as [Hq | Hq]; try done.
  - exfalso. apply Hq, (Hall a); [by left | done].
  - exfalso. apply Hp, (Hall a); [by left | done].
Qed.

Lemma filter_all {A} (P : A -> Prop) `{!forall x, Decision (P x)} (l : list A) :
  (forall x, x ∈ l -> P x) -> filter P l = l.
Proof.
  induction l as [| a l IH]; intros Hall; [done |].
  rewrite filter_cons_True by (apply Hall; by left).
  f_equal. apply IH. intros x Hx. apply Hall. by right.
Qed.

Lemma reveal_step_exact el p :
  (mark_revealed el ;;; reveal el ;;; unobserve el) p =
  (Normal tt,
   Page (alter restyled el (elements p)) (console p)
        ((fun o => Observer (threshold o) (rootMargin o)
                     (filter (fun x => x ≠ el) (targets o))) <$> observer p)
        (revealed p ++ [el]) (page_uncaught p)).
Proof.
  unfold reveal, bind, mark_revealed, set_style, classList_add, unobserve,
    with_observer.
  simpl. do 2 f_equal. apply map_eq. intros k.
  destruct (decide (k = el)) as [-> | Hk].
  - rewrite !lookup_alter_eq. by destruct (elements p !! el).
  - by rewrite !lookup_alter_ne.
Qed.

Lemma conceal_step_exact el p :
  conceal_and_observe el p =
  (Normal tt,
   Page (alter concealed el (elements p)) (console p)
        ((fun o => Observer (threshold o) (rootMargin o)
                     (if decide (el ∈ targets o) then targets o
                      else targets o ++ [el])) <$> observer p)
        (revealed p) (page_uncaught p)).
Proof.
  unfold conceal_and_observe, bind, set_style, observe, with_observer.
  simpl. do 2 f_equal. apply map_eq. intros k.
  destruct (decide (k = el)) as [-> | Hk].
  - rewrite !lookup_alter_eq. by destruct (elements p !! el).
  - by rewrite !lookup_alter_ne.
Qed.

Lemma scroll_callback_effect es : forall p,
  exists p', scroll_callback es p = (Normal tt, p') /\
    revealed p' = revealed p ++
      (target <$> filter (fun e => isIntersecting e = true) es) /\
    watching p' = filter (fun el => el ∉ target <$>
                            filter (fun e => isIntersecting e = true) es)
                         (watching p) /\
    elements p' = foldl (fun m e => alter restyled (target e) m) (elements p)
                        (filter (fun e => isIntersecting e = true) es) /\
    page_uncaught p' = page_uncaught p /\
    (is_Some (observer p') <-> is_Some (observer p)).
Proof.
  induction es as [| e es IH]; intros p.
  { exists p. split_and!; try done.
    - by rewrite app_nil_r.
    - simpl. symmetry. apply filter_all.
      intros x _ Hx. by apply elem_of_nil in Hx. }
  unfold scroll_callback in *. rewrite observer_callback_cons.
  destruct (isIntersecting e) eqn:Hi.
  - rewrite reveal_step_exact.
    destruct (IH (Page (alter restyled (target e) (elements p)) (console p)
                   ((fun o => Observer (threshold o) (rootMargin o)
                      (filter (fun x => x ≠ target e) (targets o))) <$> observer p)
                   (revealed p ++ [target e]) (page_uncaught p)))
      as (p' & Heq & Hr & Hw & Hel & Hu & Ho).
    exists p'. rewrite Heq. rewrite filter_cons_True by done.
    split_and!; try done.
    + rewrite Hr. simpl. by rewrite <- app_assoc.
    + rewrite Hw. unfold watching. simpl.
      destruct (observer p) as [o |]; simpl; [| done].
      rewrite list_filter_filter. apply filter_agree.
      intros x _. rewrite not_elem_of_cons. tauto.
    + rewrite Ho. simpl. by destruct (observer p).
  - unfold ret at 1. destruct (IH p) as (p' & Heq & Hr & Hw & Hel & Hu & Ho).
    exists p'. rewrite Heq.
    rewrite filter_cons_False by (by rewrite Hi). done.
Qed.

Lemma take_entries_hits fr o :
  target <$> filter (fun e => isIntersecting e = true) (take_entries fr o)
  = filter (fun el => reaches fr (threshold o) el = true) (targets o).
Proof.
  unfold take_entries, reaches.
  induction (targets o) as [| el l IH]; [done |].
  cbn [omap list_omap]. destruct (fr el) as [r |] eqn:Hr; cbn [fmap option_fmap option_map].
  - destruct (Qle_bool (threshold o) r) eqn:Hle.
    + rewrite !filter_cons_True by (by rewrite ?Hr). cbn. by rewrite IH.
    + rewrite !filter_cons_False by (by rewrite ?Hr, ?Hle). exact IH.
  - rewrite filter_cons_False by (by rewrite Hr). exact IH.
Qed.
End FrameFacts.

(** X13. One frame, for the page of [initScrollAnimations]: the reveal
    action fires for exactly the watched elements whose reported visible
    fraction reaches the threshold, in the order in which they are
    watched; these elements stop being watched and all others stay
    watched; nothing is thrown. *)
Theorem frame_reveals_what_it_shows {E} (p : page E) (o : observer_state)
    (fr : frame) :
  observer p = Some o ->
  let p' := notify scroll_callback p fr in
  revealed p' = revealed p ++
    filter (fun el => reaches fr (threshold o) el = true) (targets o) /\
  watching p' =
    filter (fun el => reaches fr (threshold o) el ≠ true) (targets o) /\
  page_uncaught p' = page_uncaught p.
Proof.
  intros Ho.
  destruct (scroll_callback_effect (take_entries fr o) p)
    as (p' & Heq & Hr & Hw & _ & Hu & _).
  assert (notify scroll_callback p fr = p') as ->.
  { unfold notify. rewrite Ho.
    destruct (take_entries fr o) as [| e es] eqn:Hes.
    - unfold scroll_callback, observer_callback in Heq. cbn in Heq.
      unfold ret in Heq. by injection Heq.
    - by rewrite Heq. }
  rewrite take_entries_hits in Hr, Hw.
  split_and!; [exact Hr | | exact Hu].
  rewrite Hw. unfold watching. rewrite Ho. simpl.
  apply filter_agree. intros x Hx. rewrite list_elem_of_filter. tauto.
Qed.

Lemma frame_reveals_what_it_shows_sample :
  let p := (initScrollAnimations two_cards browser (page0 bare_cards)).2 in
  let p' := notify scroll_callback p (card1_shows (1 # 2)) in
  revealed p' = revealed p ++
    filter (fun el => reaches (card1_shows (1 # 2)) (1 # 10) el = true) [1; 2] /\
  watching p' =
    filter (fun el => reaches (card1_shows (1 # 2)) (1 # 10) el ≠ true) [1; 2] /\
  page_uncaught p' = page_uncaught p.
Proof.
  apply (frame_reveals_what_it_shows
           (initScrollAnimations two_cards browser (page0 bare_cards)).2
           (Observer (1 # 10) "0px 0px -50px 0px" [1; 2])
           (card1_shows (1 # 2))).
  reflexivity.
Defined.

(** ** Hidden until revealed *)

Section VisibilityFacts.
Context {E : Type}.
Implicit Types (p : page E) (m : gmap nat element).

(** Altering some keys by [f], whose results all satisfy [Good]. *)
Lemma foldl_alter_good (f : element -> element) (Good : element -> Prop)
      (el : nat) :
  (forall e, Good (f e)) ->
  forall ks m,
    el ∈ ks \/ (forall e, m !! el = Some e -> Good e) ->
    let m' := foldl (fun m k => alter f k m) m ks in
    (forall e', m' !! el = Some e' -> Good e') /\
    (is_Some (m' !! el) <-> is_Some (m !! el)).
Proof.
  intros Hf. induction ks as [| k ks IH]; intros m Hm.
  - destruct Hm as [Hin | Hm]; [by apply elem_of_nil in Hin | by split].
  - cbn [foldl]. destruct (decide (k = el)) as [-> | Hk].
    + destruct (IH (alter f el m)) as [Hgood Hsome].
      { right. intros e. rewrite lookup_alter_eq.
        destruct (m !! el); [| done]. intros [= <-]. apply Hf. }
      split; [exact Hgood |]. rewrite Hsome, lookup_alter_eq.
      by rewrite fmap_is_Some.
    + destruct (IH (alter f k m)) as [Hgood Hsome].
      { rewrite lookup_alter_ne by done.
        destruct Hm as [Hin | Hm]; [left | by right].
        apply elem_of_cons in Hin as [-> | Hin]; done. }
      split; [exact Hgood |]. by rewrite Hsome, lookup_alter_ne.
Qed.

Lemma foldl_alter_other (f : element -> element) (el : nat) :
  forall ks m, el ∉ ks ->
    foldl (fun m k => alter f k m) m ks !! el = m !! el.
Proof.
  induction ks as [| k ks IH]; intros m Hnot; [done |].
  apply not_elem_of_cons in Hnot as [Hne Hnot]. cbn [foldl].
  rewrite IH by done. by rewrite lookup_alter_ne.
Qed.

Lemma foldl_alter_targets (f : element -> element) (es : list entry) m :
  foldl (fun m e => alter f (target e) m) m es =
  foldl (fun m k => alter f k m) m (target <$> es).
Proof. revert m. induction es as [| e es IH]; intros m; [done | apply IH]. Qed.

Lemma setup_effect (els : list nat) : forall p,
  is_Some (observer p) ->
  exists p',
    forEach els conceal_and_observe p = (Normal tt, p') /\
    revealed p' = revealed p /\ is_Some (observer p') /\
    (forall el, el ∈ watching p \/ el ∈ els -> el ∈ watching p') /\
    elements p' = foldl (fun m k => alter concealed k m) (elements p) els.
Proof.
  induction els as [| el els IH]; intros p Ho.
  { exists p. split_and!; try done. by intros el [? | ?%elem_of_nil]. }
  rewrite forEach_cons, conceal_step_exact.
  destruct Ho as [o Ho].
  destruct (IH (Page (alter concealed el (elements p)) (console p)
                  ((fun o => Observer (threshold o) (rootMargin o)
                     (if decide (el ∈ targets o) then targets o
                      else targets o ++ [el])) <$> observer p)
                  (revealed p) (page_uncaught p)))
    as (p' & Heq & Hr & Ho' & Hw & Hel).
  { simpl. rewrite Ho. by eexists. }
  exists p'. rewrite Heq. split_and!; try done.
  intros x Hx. apply Hw. unfold watching in *. simpl. rewrite Ho in *. simpl in *.
  destruct Hx as [Hx | [-> | Hx]%elem_of_cons].
  - left. case_decide; [done |]. apply elem_of_app. by left.
  - left. case_decide; [done |]. apply elem_of_app. right. by left.
  - by right.
Qed.

Lemma opacity_good p el (v : string) :
  (forall e', elements p !! el = Some e' -> style e' !! "opacity" = Some v) ->
  opacity_of p el = (fun _ => v) <$> (elements p !! el).
Proof.
  intros H. unfold opacity_of. destruct (elements p !! el) as [e' |]; [| done].
  simpl. by apply H.
Qed.

Lemma opacity_good_inv p el (v : string) e' :
  opacity_of p el = (fun _ => v) <$> (elements p !! el) ->
  elements p !! el = Some e' -> style e' !! "opacity" = Some v.
Proof. unfold opacity_of. intros H He. by rewrite He in H. Qed.

Lemma notify_keeps_state p fr el :
  hidden p el \/ shown p el ->
  let p' := notify scroll_callback p fr in
  hidden p' el \/ shown p' el.
Proof.
  intros Hst.
  destruct (observer p) as [o |] eqn:Ho;
    [| unfold notify; by rewrite Ho].
  destruct (scroll_callback_effect (take_entries fr o) p)
    as (p' & Heq & Hr & Hw & Hel & _ & _).
  assert (notify scroll_callback p fr = p') as ->.
  { unfold notify. rewrite Ho.
    destruct (take_entries fr o) as [| e es] eqn:Hes.
    - unfold scroll_callback, observer_callback in Heq. cbn in Heq.
      unfold ret in Heq. by injection Heq.
    - by rewrite Heq. }
  cbn zeta. clear Heq.
  rewrite foldl_alter_targets in Hel.
  set (hits := target <$> filter (fun e => isIntersecting e = true)
                                 (take_entries fr o)) in *.
  assert (forall x, x ∈ hits -> x ∈ watching p) as Hsub.
  { intros x Hx. unfold hits in Hx. rewrite take_entries_hits in Hx.
    apply list_elem_of_filter in Hx as [_ Hx]. unfold watching. by rewrite Ho. }
  destruct (decide (el ∈ hits)) as [Hin | Hout].
  - right. destruct Hst as [(Hwatch & Hnew & Hop) | (_ & Hnot & _)];
      [| by apply Hsub in Hin].
    destruct (foldl_alter_good restyled
                (fun e => style e !! "opacity" = Some "1" /\ "animated" ∈ classList e)
                el) with (ks := hits) (m := elements p) as [Hgood Hsome].
    { intros e. split; simpl.
      - by rewrite lookup_insert_ne, lookup_insert_eq.
      - apply elem_of_add_token. by left. }
    { by left. }
    rewrite <- Hel in Hgood, Hsome.
    split_and!.
    + rewrite Hr. apply elem_of_app. by right.
    + rewrite Hw. rewrite list_elem_of_filter. by intros [? _].
    + apply opacity_good. intros e' He'. by apply Hgood.
    + intros [e' He']. unfold classes_of. rewrite He'. simpl. by apply Hgood.
  - assert (elements p' !! el = elements p !! el) as Hsame
      by (rewrite Hel; by apply foldl_alter_other).
    destruct Hst as [(Hwatch & Hnew & Hop) | (Hold & Hnot & Hop & Hcl)].
    + left. split_and!.
      * rewrite Hw. by apply list_elem_of_filter.
      * rewrite Hr. rewrite not_elem_of_app. by split.
      * unfold opacity_of in *. by rewrite Hsame.
    + right. split_and!.
      * rewrite Hr. apply elem_of_app. by left.
      * rewrite Hw. rewrite list_elem_of_filter. by intros [_ ?].
      * unfold opacity_of in *. by rewrite Hsame.
      * unfold classes_of in *. by rewrite Hsame.
Qed.

Lemma frames_keep_state frames el : forall p,
  hidden p el \/ shown p el ->
  let p' := foldl (notify scroll_callback) p frames in
  hidden p' el \/ shown p' el.
Proof.
  induction frames as [| fr frames IH]; intros p Hp; [done |].
  cbn [foldl]. by apply IH, notify_keeps_state.
Qed.
End VisibilityFacts.

(** ** The staggered card animation *)

Section StaggerFacts.
Context {E : Type}.
Implicit Types (s : stage E) (es : list entry) (xs : list (Z * nat)).

Lemma armed_list_cons n0 x xs :
  armed_list n0 (x :: xs) = Timer n0 x.1 x.2 :: armed_list (S n0) xs.
Proof.
  unfold armed_list. cbn [imap]. rewrite Nat.add_0_r. f_equal.
  apply imap_ext. intros j y _. simpl. f_equal. lia.
Qed.

Lemma armed_list_tid n0 xs u : u ∈ armed_list n0 xs -> n0 <= tid u.
Proof.
  unfold armed_list. intros (j & y & -> & _)%elem_of_lookup_imap. simpl. lia.
Qed.

Lemma armed_list_due n0 xs u lo :
  ascending lo xs -> u ∈ armed_list n0 xs -> (lo <= due u)%Z.
Proof.
  revert n0 lo. induction xs as [| x xs IH]; intros n0 lo Hasc Hin.
  - by apply elem_of_nil in Hin.
  - rewrite armed_list_cons in Hin. destruct Hasc as [Hlo Hasc].
    apply elem_of_cons in Hin as [-> | Hin]; [done |].
    specialize (IH _ _ Hasc Hin). lia.
Qed.

Lemma earliest_in {C} (l : list (timer C)) u : earliest l = Some u -> u ∈ l.
Proof.
  revert u. induction l as [| t l IH]; intros u; [done |].
  cbn [earliest]. destruct (earliest l) as [v |].
  - destruct (due v <? due t)%Z; intros [= <-]; [right; by apply IH | by left].
  - intros [= <-]. by left.
Qed.

Lemma earliest_head {C} (t : timer C) (l : list (timer C)) :
  (forall u, u ∈ l -> (due t <= due u)%Z) -> earliest (t :: l) = Some t.
Proof.
  intros Hall. cbn [earliest]. destruct (earliest l) as [v |] eqn:Hv; [| done].
  apply earliest_in, Hall in Hv.
  by rewrite (proj2 (Z.ltb_ge _ _) Hv).
Qed.

Lemma schedule_ascending t es : forall index,
  ascending (t + Z.of_nat index * 150) (schedule_from t index es).
Proof.
  assert (forall lo lo' xs, (lo' <= lo)%Z -> ascending lo xs -> ascending lo' xs)
    as Hweak.
  { intros lo lo' [| x xs] Hle; [done |]. simpl. intros [? ?]. split; [lia | done]. }
  induction es as [| e es IH]; intros index; [done |].
  cbn [schedule_from]. specialize (IH (S index)).
  destruct (isIntersecting e); simpl.
  - split; [lia |]. eapply Hweak; [| exact IH]. lia.
  - eapply Hweak; [| exact IH]. lia.
Qed.

Lemma schedule_length t es : forall index,
  length (schedule_from t index es) <= length es.
Proof.
  induction es as [| e es IH]; intros index; [done |].
  cbn [schedule_from]. rewrite length_app. specialize (IH (S index)).
  destruct (isIntersecting e); simpl; lia.
Qed.

Lemma stagger_entries_effect es : forall index s,
  exists s', stagger_entries index es s = (Normal tt, s') /\
    st_shown s' = st_shown s /\
    now (st_clk s') = now (st_clk s) /\
    pending (st_clk s') =
      pending (st_clk s) ++
      armed_list (next_id (st_clk s))
                 (schedule_from (now (st_clk s)) index es) /\
    watching (st_page s') =
      filter (fun el => el ∉ target <$>
                filter (fun e => isIntersecting e = true) es)
             (watching (st_page s)) /\
    revealed (st_page s') = revealed (st_page s) /\
    elements (st_page s') = elements (st_page s).
Proof.
  induction es as [| e es IH]; intros index s.
  { exists s. split_and!; try done.
    - simpl. by rewrite app_nil_r.
    - simpl. symmetry. apply filter_all. intros x _ Hx. by apply elem_of_nil in Hx. }
  cbn [stagger_entries]. unfold bind at 1.
  destruct (isIntersecting e) eqn:Hi.
  - unfold bind at 1, stage_setTimeout at 1, on_page at 1, unobserve at 1.
    cbn [arm st_clk st_page st_shown fst snd].
    set (s1 := Stage _ _ _).
    destruct (IH (S index) s1) as (s' & Heq & Hsh & Hnow & Hp & Hw & Hr & Hel).
    exists s'. rewrite Heq. subst s1. cbn in Hsh, Hnow, Hp, Hw, Hr, Hel.
    split_and!; try done.
    + rewrite Hp. cbn [schedule_from]. rewrite Hi. cbn [app].
      rewrite armed_list_cons, <- app_assoc. cbn.
      rewrite Z.max_r by lia. done.
    + rewrite Hw. rewrite filter_cons_True by done. unfold watching. cbn.
      destruct (observer (st_page s)) as [o |]; cbn; [| done].
      rewrite list_filter_filter. apply filter_agree.
      intros x _. rewrite not_elem_of_cons. tauto.
  - unfold ret at 1.
    destruct (IH (S index) s) as (s' & Heq & Hsh & Hnow & Hp & Hw & Hr & Hel).
    exists s'. rewrite Heq. split_and!; try done.
    + rewrite Hp. cbn [schedule_from]. by rewrite Hi.
    + rewrite Hw. by rewrite filter_cons_False by (by rewrite Hi).
Qed.

Lemma reveal_card_effect el s :
  exists els,
    reveal_card el s =
    (Normal tt,
     Stage (Page els (console (st_page s)) (observer (st_page s))
                 (revealed (st_page s)) (page_uncaught (st_page s)))
           (st_clk s) (st_shown s ++ [(now (st_clk s), el)])).
Proof.
  unfold reveal_card, bind, mark_shown, on_page, set_style, classList_add.
  cbn. eauto.
Qed.

Lemma stage_drains xs : forall n0 s fuel,
  pending (st_clk s) = armed_list n0 xs ->
  ascending (now (st_clk s)) xs ->
  length xs <= fuel ->
  let s' := stage_settle fuel s in
  st_shown s' = st_shown s ++ xs /\ pending (st_clk s') = [] /\
  observer (st_page s') = observer (st_page s) /\
  revealed (st_page s') = revealed (st_page s).
Proof.
  induction xs as [| x xs IH]; intros n0 s fuel Hp Hasc Hfuel.
  - assert (stage_settle fuel s = s) as ->.
    { destruct fuel; [done |]. cbn. unfold stage_fire, take_due. by rewrite Hp. }
    by rewrite app_nil_r.
  - destruct fuel as [| fuel]; [simpl in Hfuel; lia |].
    destruct Hasc as [Hlo Hasc]. rewrite armed_list_cons in Hp.
    cbn [stage_settle]. unfold stage_fire, take_due. rewrite Hp.
    rewrite earliest_head
      by (intros u Hu; simpl; by eapply armed_list_due).
    cbn [eligible callback due tid].
    rewrite filter_cons_False by (simpl; by intros Hne; apply Hne).
    rewrite filter_all
      by (intros u Hu%armed_list_tid; simpl; lia).
    unfold stage_runs.
    destruct (reveal_card_effect x.2
                (Stage (st_page s)
                   (Clock (now (st_clk s) `max` x.1) (next_id (st_clk s))
                          (armed_list (S n0) xs))
                   (st_shown s))) as [els ->].
    cbn [st_clk st_shown st_page now].
    rewrite Z.max_r by lia.
    edestruct (IH (S n0)) as (Hsh & Hpend & Hobs & Hrev);
      [| | | rewrite Hsh, Hpend, Hobs, Hrev].
    + reflexivity.
    + exact Hasc.
    + simpl in Hfuel. lia.
    + cbn. rewrite <- app_assoc. by destruct x.
Qed.
End StaggerFacts.

(** X15. The card observer staggers by position in the batch. If no timer
    is pending when a notification arrives at [t], then once the timers
    have run, the cards of the batch that intersect have been revealed in
    batch order, the one at position [i] of the batch at [t + 150 * i]
    (positions count the entries that do not intersect as well); each of
    them was unobserved at [t] already, and no timer is left. *)
Theorem stagger_reveals_by_batch_position {E} (s : stage E) (o : observer_state)
    (fr : frame) (t : Z) (fuel : nat) :
  observer (st_page s) = Some o ->
  pending (st_clk s) = [] ->
  length (take_entries fr o) <= fuel ->
  let s' := stage_settle fuel (stage_notify t fr s) in
  st_shown s' = st_shown s ++ schedule_from t 0 (take_entries fr o) /\
  pending (st_clk s') = [] /\
  watching (st_page s') =
    filter (fun el => reaches fr (threshold o) el ≠ true) (targets o).
Proof.
  intros Ho Hp Hfuel.
  destruct (stagger_entries_effect (take_entries fr o) 0
              (Stage (st_page s) (set_now t (st_clk s)) (st_shown s)))
    as (s1 & Heq & Hsh & Hnow & Hpend & Hw & _ & _).
  cbn in Hsh, Hnow, Hpend, Hw. rewrite Hp in Hpend. cbn in Hpend.
  assert (stage_notify t fr s = s1) as ->.
  { unfold stage_notify. rewrite Ho.
    destruct (take_entries fr o) as [| e es] eqn:Hes.
    - cbn in Heq. unfold ret in Heq. by injection Heq.
    - unfold stage_runs, card_callback. by rewrite Heq. }
  pose proof (schedule_length t (take_entries fr o) 0) as Hlen.
  destruct (stage_drains (schedule_from t 0 (take_entries fr o))
              (next_id (st_clk s)) s1 fuel) as (Hshown & Hnone & Hobs & _).
  - exact Hpend.
  - rewrite Hnow. pose proof (schedule_ascending t (take_entries fr o) 0) as Ha.
    by rewrite Z.mul_0_l, Z.add_0_r in Ha.
  - lia.
  - split_and!; [by rewrite Hshown, Hsh | exact Hnone |].
    unfold watching in *. rewrite Hobs, Hw, Ho. cbn [from_option].
    rewrite take_entries_hits.
    apply filter_agree. intros x Hx. rewrite list_elem_of_filter. tauto.
Qed.

Lemma stagger_reveals_by_batch_position_sample :
  let s : stage string :=
    Stage (initStaggeredAnimations two_cards browser (page0 bare_cards)).2
          clock0 [] in
  let fr : frame := fun el => if decide (el = 2) then Some (1 # 2)%Q
                              else Some (0 # 1)%Q in
  let s' := stage_settle 5 (stage_notify 1000 fr s) in
  st_shown s' = [] ++ schedule_from 1000 0
                        (take_entries fr (Observer (3 # 10) "0px 0px 0px 0px" [1; 2])) /\
  pending (st_clk s') = [] /\
  watching (st_page s') =
    filter (fun el => reaches fr (3 # 10) el ≠ true) [1; 2].
Proof.
  intros s fr.
  apply (stagger_reveals_by_batch_position s
           (Observer (3 # 10) "0px 0px 0px 0px" [1; 2]) fr 1000 5).
  - reflexivity.
  - reflexivity.
  - vm_compute. lia.
Defined.

(** In the sample the second card alone is in view, at position 1 of the
    batch: it is revealed 150 after the notification. *)
Example stagger_second_card_waits :
  let s : stage string :=
    Stage (initStaggeredAnimations two_cards browser (page0 bare_cards)).2
          clock0 [] in
  let fr : frame := fun el => if decide (el = 2) then Some (1 # 2)%Q
                              else Some (0 # 1)%Q in
  st_shown (stage_settle 5 (stage_notify 1000 fr s)) = [(1150%Z, 2)].
Proof. vm_compute. done. Qed.

Section StaggerOnce.
Context {E : Type}.
Implicit Types (s : stage E) (es : list entry) (xs : list (Z * nat)).

Lemma NoDup_fmap_filter {A B} (f : A -> B) (P : A -> Prop)
      `{!forall x, Decision (P x)} (l : list A) :
  NoDup (f <$> l) -> NoDup (f <$> filter P l).
Proof.
  induction l as [| a l IH]; intros Hnd; [done |].
  cbn [fmap list_fmap] in Hnd. apply NoDup_cons in Hnd as [Ha Hnd].
  rewrite filter_cons. case_decide; [| by apply IH].
  cbn [fmap list_fmap]. apply NoDup_cons. split; [| by apply IH].
  intros (b & Hb & Hin)%list_elem_of_fmap. apply Ha.
  apply list_elem_of_filter in Hin as [_ Hin].
  rewrite Hb. apply list_elem_of_fmap. eauto.
Qed.

Lemma fmap_filter_other {C} (l : list (timer C)) (u : timer C) :
  NoDup (callback <$> l) -> u ∈ l ->
  callback u ∉ callback <$> filter (fun v => tid v ≠ tid u) l.
Proof.
  induction l as [| v l IH]; intros Hnd Hu; [by apply elem_of_nil in Hu |].
  cbn [fmap list_fmap] in Hnd. apply NoDup_cons in Hnd as [Hv Hnd].
  apply elem_of_cons in Hu as [-> | Hu].
  - rewrite filter_cons_False by (by intros Hne; apply Hne).
    intros Hin. apply Hv.
    apply list_elem_of_fmap in Hin as (w & Hw & Hin).
    apply list_elem_of_filter in Hin as [_ Hin].
    rewrite Hw. apply list_elem_of_fmap. eauto.
  - rewrite filter_cons. case_decide.
    + cbn [fmap list_fmap]. rewrite not_elem_of_cons. split; [| by apply IH].
      intros Heq. apply Hv. rewrite <- Heq. apply list_elem_of_fmap. eauto.
    + by apply IH.
Qed.

Lemma armed_list_callbacks n0 xs : callback <$> armed_list n0 xs = snd <$> xs.
Proof.
  revert n0. induction xs as [| x xs IH]; intros n0; [done |].
  rewrite armed_list_cons. cbn. by rewrite IH.
Qed.

Lemma schedule_cards t es : forall index,
  snd <$> schedule_from t index es
  = target <$> filter (fun e => isIntersecting e = true) es.
Proof.
  induction es as [| e es IH]; intros index; [done |].
  cbn [schedule_from]. rewrite fmap_app, IH.
  destruct (isIntersecting e) eqn:Hi.
  - by rewrite filter_cons_True by done.
  - by rewrite filter_cons_False by (by rewrite Hi).
Qed.

Lemma notify_staged_once t fr s :
  staged_once s -> staged_once (stage_notify t fr s).
Proof.
  intros (Hc & Hw & Hdis). unfold stage_notify.
  destruct (observer (st_page s)) as [o |] eqn:Ho; [| done].
  destruct (stagger_entries_effect (take_entries fr o) 0
              (Stage (st_page s) (set_now t (st_clk s)) (st_shown s)))
    as (s1 & Heq & Hsh & _ & Hpend & Hw1 & _ & _).
  cbn in Hsh, Hpend, Hw1.
  assert (match take_entries fr o with
          | [] => Stage (st_page s) (set_now t (st_clk s)) (st_shown s)
          | _ :: _ => stage_runs (card_callback (take_entries fr o))
                        (Stage (st_page s) (set_now t (st_clk s)) (st_shown s))
          end = s1) as Hs1.
  { destruct (take_entries fr o) as [| e es] eqn:Hes.
    - cbn in Heq. unfold ret in Heq. by injection Heq.
    - unfold stage_runs, card_callback. by rewrite Heq. }
  destruct (take_entries fr o) as [| e0 es0] eqn:Hes;
    [| rewrite <- Hes in *; clear Hes]; rewrite Hs1; clear Hs1 Heq.
  - unfold staged_once, claimed in *. rewrite Hsh, Hpend, Hw1. cbn.
    rewrite app_nil_r. rewrite filter_all by (intros ? _; apply not_elem_of_nil).
    done.
  - set (hits := target <$> filter (fun e => isIntersecting e = true)
                                   (take_entries fr o)) in *.
    assert (NoDup hits /\ forall x, x ∈ hits -> x ∈ watching (st_page s))
      as [Hnd Hsub].
    { unfold hits. rewrite take_entries_hits. unfold watching in *.
      rewrite Ho in *. cbn in *. split; [by apply NoDup_filter |].
      intros x Hx. by apply list_elem_of_filter in Hx as [_ ?]. }
    unfold staged_once, claimed in *.
    rewrite Hsh, Hpend, Hw1, fmap_app, armed_list_callbacks, schedule_cards.
    fold hits. split_and!.
    + rewrite <- app_assoc. apply NoDup_app in Hc as (Hc1 & Hc2 & Hc3).
      apply NoDup_app. split_and!; [done | |].
      * intros x Hx [Hh | Hs]%elem_of_app; [| by eapply Hc2].
        apply (Hdis x); [apply elem_of_app; by left | by apply Hsub].
      * apply NoDup_app. split_and!; [done | | done].
        intros x Hh Hs. apply (Hdis x); [apply elem_of_app; by right |].
        by apply Hsub.
    + by apply NoDup_filter.
    + intros el Hel. rewrite list_elem_of_filter. intros [Hnot Hin].
      rewrite <- app_assoc in Hel.
      apply elem_of_app in Hel as [Hel | [Hel | Hel]%elem_of_app].
      * apply (Hdis el); [apply elem_of_app; by left | done].
      * done.
      * apply (Hdis el); [apply elem_of_app; by right | done].
Qed.

Lemma fire_staged_once s s' :
  staged_once s -> stage_fire s = Some s' -> staged_once s'.
Proof.
  intros (Hc & Hw & Hdis). unfold stage_fire, take_due.
  destruct (earliest (pending (st_clk s))) as [u |] eqn:Hu; [| done].
  cbn [eligible]. intros [= <-]. apply earliest_in in Hu.
  unfold stage_runs.
  destruct (reveal_card_effect (callback u)
              (Stage (st_page s)
                 (Clock (now (st_clk s) `max` due u) (next_id (st_clk s))
                        (filter (fun v => tid v ≠ tid u) (pending (st_clk s))))
                 (st_shown s))) as [els ->].
  unfold staged_once, claimed, watching in *. cbn.
  apply NoDup_app in Hc as (Hc1 & Hc2 & Hc3).
  assert (callback u ∈ callback <$> pending (st_clk s)) as Hcu
    by (apply list_elem_of_fmap; eauto).
  split_and!; [| done |].
  - rewrite fmap_app. cbn. apply NoDup_app. split_and!.
    + by apply NoDup_fmap_filter.
    + intros x Hx [Hs | ->%list_elem_of_singleton]%elem_of_app.
      * apply (Hc2 x); [| done].
        apply list_elem_of_fmap in Hx as (v & -> & Hv).
        apply list_elem_of_filter in Hv as [_ Hv].
        apply list_elem_of_fmap. eauto.
      * by apply (fmap_filter_other (pending (st_clk s)) u).
    + apply NoDup_app. split_and!; [done | | apply NoDup_singleton].
      intros x Hs ->%list_elem_of_singleton. by apply (Hc2 (callback u)).
  - intros el Hel. apply Hdis. rewrite fmap_app in Hel. cbn in Hel.
    apply elem_of_app in Hel as [Hel | [Hel | ->%list_elem_of_singleton]%elem_of_app].
    + apply elem_of_app. left.
      apply list_elem_of_fmap in Hel as (v & -> & Hv).
      apply list_elem_of_filter in Hv as [_ Hv].
      apply list_elem_of_fmap. eauto.
    + apply elem_of_app. by right.
    + apply elem_of_app. by left.
Qed.

Lemma steps_staged_once events : forall s,
  staged_once s -> staged_once (foldl stage_step s events).
Proof.
  induction events as [| ev events IH]; intros s Hs; [done |].
  cbn [foldl]. apply IH. destruct ev as [t fr |]; cbn [stage_step].
  - by apply notify_staged_once.
  - destruct (stage_fire s) as [s' |] eqn:Hf; [| done].
    by eapply fire_staged_once.
Qed.

Lemma prepare_cards_NoDup (cards : list nat) : forall (p : page E),
  NoDup (watching p) ->
  exists p', forEach cards prepare_card p = (Normal tt, p') /\
             NoDup (watching p').
Proof.
  induction cards as [| card cards IH]; intros p Hp; [by exists p |].
  rewrite forEach_cons. unfold prepare_card at 1, bind at 1.
  unfold classList_contains at 1.
  destruct (bool_decide _); cbn [negb].
  - unfold ret at 1. by apply IH.
  - unfold bind, set_style, observe, with_observer. cbn.
    apply IH. unfold watching in *. cbn.
    destruct (observer p) as [o |]; cbn in *; [| constructor].
    case_decide; [done |].
    apply NoDup_app. split_and!; [done | | apply NoDup_singleton].
    by intros x Hx ->%list_elem_of_singleton.
Qed.

Lemma initStaggeredAnimations_NoDup (doc : document E) env (p : page E) :
  NoDup (watching p) ->
  NoDup (watching (initStaggeredAnimations doc env p).2).
Proof.
  intros Hp. unfold initStaggeredAnimations.
  destruct (has_IntersectionObserver env); cbn [negb]; [| done].
  unfold bind at 1, new_IntersectionObserver at 1. cbn [fst snd].
  unfold bind at 1, safeQuerySelectorAll, try_catch, host_query.
  destruct (querySelectorAll doc card_selector) as [cards | x].
  - destruct (prepare_cards_NoDup cards
                (with_observer (Some (Observer (3 # 10) "0px 0px 0px 0px" [])) p))
      as (p' & -> & Hnd); [unfold watching; cbn; constructor | done].
  - cbn. unfold watching. cbn. constructor.
Qed.
End StaggerOnce.

(** X16. Whatever the order in which notifications arrive and timers
    run, after [initStaggeredAnimations] no card is revealed by the card
    observer more than once, and a card that has been revealed, or whose
    reveal is scheduled, is not observed any more. *)
Theorem cards_are_staggered_once {E} (doc : document E) (env : host)
    (elems : gmap nat element) (events : list stage_event) :
  let s := foldl stage_step
             (Stage (initStaggeredAnimations doc env (page0 elems)).2 clock0 [])
             events in
  NoDup (snd <$> st_shown s) /\
  NoDup (callback <$> pending (st_clk s)) /\
  forall el, el ∈ claimed s -> el ∉ watching (st_page s).
Proof.
  intros s.
  assert (staged_once s) as (Hc & _ & Hdis).
  { apply steps_staged_once. unfold staged_once, claimed. cbn. split_and!.
    - constructor.
    - apply initStaggeredAnimations_NoDup. unfold watching. cbn. constructor.
    - intros el Hel. by apply elem_of_nil in Hel. }
  unfold claimed in Hc. apply NoDup_app in Hc as (Hp & _ & Hs).
  by split_and!.
Qed.

(** ** Smooth scrolling *)

(** X17. A click on an in-page link never throws and always prevents the
    default action. If the [href] selects an element, the page scrolls
    to that element's top minus the height of the navigation bar and the
    element gets focus; the height is the [offsetHeight] of the bar when
    the bar is found and that height is not 0, and 70 in every other case
    (no bar, a query for the bar that throws, a height of 0). If the
    [href] selects nothing, or is not a valid selector, nothing scrolls,
    nothing gets focus, and the last line on the console says that the
    target was not found. *)
Theorem anchor_click_is_safe {E} (doc : document E)
    (el_offsetTop el_offsetHeight : nat -> Z) (targetId : string) (p : page E) :
  exists eff p',
    anchor_click doc el_offsetTop el_offsetHeight targetId p = (Normal eff, p') /\
    default_prevented eff = true /\
    match querySelector doc targetId with
    | Normal (Some tg) =>
        focused eff = Some tg /\
        scrollTo_top eff =
          Some (el_offsetTop tg -
                match querySelector doc ".navbar" with
                | Normal (Some nb) =>
                    if decide (el_offsetHeight nb = 0%Z) then 70
                    else el_offsetHeight nb
                | _ => 70
                end)%Z
    | _ =>
        scrollTo_top eff = None /\ focused eff = None /\
        last (console p') = Some ("Target element not found: " +:+ targetId)
    end.
Proof.
  unfold anchor_click, bind, safeQuerySelector, try_catch, host_query,
    console_warn, ret.
  destruct (querySelector doc targetId) as [[tg |] | x]; cbn.
  - destruct (querySelector doc ".navbar") as [[nb |] | y]; cbn;
      do 2 eexists; (split; [reflexivity |]); done.
  - do 2 eexists. split; [reflexivity |]. cbn. by rewrite last_snoc.
  - do 2 eexists. split; [reflexivity |]. cbn. by rewrite last_snoc.
Qed.

(** ** The two set-ups on the same cards *)

Section SetupFacts.
Context {E : Type}.
Implicit Types (p : page E) (m : gmap nat element).

Lemma stagger_concealed_styled e : stagger_styled (stagger_concealed e).
Proof.
  unfold stagger_styled. cbn. split_and!.
  - do 2 rewrite lookup_insert_ne by done. by rewrite lookup_insert_eq.
  - rewrite lookup_insert_ne by done. by rewrite lookup_insert_eq.
  - by rewrite lookup_insert_eq.
Qed.

Lemma prepare_card_exact card p :
  prepare_card card p =
  (Normal tt,
   if bool_decide ("animated" ∈ classes_of p card) then p
   else Page (alter stagger_concealed card (elements p)) (console p)
             ((fun o => Observer (threshold o) (rootMargin o)
                          (if decide (card ∈ targets o) then targets o
                           else targets o ++ [card])) <$> observer p)
             (revealed p) (page_uncaught p)).
Proof.
  unfold prepare_card, bind, classList_contains, classes_of. cbn.
  destruct (bool_decide _); cbn [negb]; [done |].
  unfold set_style, observe, with_observer, ret. cbn. do 2 f_equal.
  apply map_eq. intros k. destruct (decide (k = card)) as [-> | Hk].
  - rewrite !lookup_alter_eq. by destruct (elements p !! card).
  - by rewrite !lookup_alter_ne.
Qed.

Lemma prepare_cards_effect (cards : list nat) (el : nat) : forall p,
  is_Some (observer p) ->
  "animated" ∉ classes_of p el ->
  (el ∈ cards \/
   (el ∈ watching p /\
    forall e, elements p !! el = Some e -> stagger_styled e)) ->
  exists p',
    forEach cards prepare_card p = (Normal tt, p') /\
    el ∈ watching p' /\
    (forall e, elements p' !! el = Some e -> stagger_styled e) /\
    (is_Some (elements p' !! el) <-> is_Some (elements p !! el)).
Proof.
  induction cards as [| card cards IH]; intros p Ho Hcl Hel.
  { exists p. destruct Hel as [Hin | [? ?]]; [by apply elem_of_nil in Hin | done]. }
  rewrite forEach_cons, prepare_card_exact.
  destruct (decide (card = el)) as [-> | Hne].
  - rewrite bool_decide_eq_false_2 by done.
    edestruct IH as (p' & Heq & Hw & Hst & Hsome);
      [| | right; split | exists p'; rewrite Heq; split_and!; [done | done | done |]].
    + cbn. destruct Ho as [o ->]. by eexists.
    + unfold classes_of in *. cbn. rewrite lookup_alter_eq.
      by destruct (elements p !! el).
    + unfold watching. cbn. destruct Ho as [o ->]. cbn.
      case_decide; [done |]. apply elem_of_app. right. by left.
    + intros e. cbn. rewrite lookup_alter_eq.
      destruct (elements p !! el); [| done]. intros [= <-].
      apply stagger_concealed_styled.
    + rewrite Hsome. cbn. by rewrite lookup_alter_eq, fmap_is_Some.
  - assert (el ∈ cards \/
            el ∈ watching p /\
            (forall e, elements p !! el = Some e -> stagger_styled e)) as Hel'.
    { destruct Hel as [[? | ?]%elem_of_cons | ?]; [done | by left | by right]. }
    destruct (bool_decide ("animated" ∈ classes_of p card)); [by apply IH |].
    edestruct IH as (p' & Heq & Hw & Hst & Hsome);
      [| | | exists p'; rewrite Heq; split_and!; [done | done | done |]].
    + cbn. destruct Ho as [o ->]. by eexists.
    + unfold classes_of in *. cbn. by rewrite lookup_alter_ne.
    + destruct Hel' as [? | [Hw Hst]]; [by left | right]. split.
      * unfold watching in *. cbn. destruct Ho as [o Ho]. rewrite Ho in *. cbn in *.
        case_decide; [done |]. apply elem_of_app. by left.
      * intros e. cbn. rewrite lookup_alter_ne by done. apply Hst.
    + rewrite Hsome. cbn. by rewrite lookup_alter_ne.
Qed.

Lemma foldl_concealed_classes (ks : list nat) (el : nat) : forall m,
  classList <$> (foldl (fun m k => alter concealed k m) m ks !! el)
  = classList <$> (m !! el).
Proof.
  induction ks as [| k ks IH]; intros m; [done |].
  cbn [foldl]. rewrite IH. destruct (decide (k = el)) as [-> | Hk].
  - rewrite lookup_alter_eq. by destruct (m !! el).
  - by rewrite lookup_alter_ne.
Qed.

Lemma initScrollAnimations_keeps_classes (doc : document E) env
      (elems : gmap nat element) (el : nat) :
  classList <$> (elements (initScrollAnimations doc env (page0 elems)).2 !! el)
  = classList <$> (elems !! el).
Proof.
  destruct (has_IntersectionObserver env) eqn:He.
  - rewrite initScrollAnimations_observing by done. cbn zeta.
    destruct (querySelectorAll doc animated_selector) as [els | x]; [| done].
    destruct (setup_effect (E := E) els
                (with_observer (Some (Observer (1 # 10) "0px 0px -50px 0px" []))
                               (page0 elems)))
      as (p' & Heq & _ & _ & _ & Hels); [by eexists |].
    rewrite Heq. cbn [snd]. rewrite Hels. apply foldl_concealed_classes.
  - unfold initScrollAnimations. by rewrite He.
Qed.
End SetupFacts.

(** X18. At start-up the guard of the staggered set-up does not protect
    the cards from being set up twice: a card of the document that does
    not carry the class [animated] in the markup is still without it
    after [initScrollAnimations], whose reveals come later, so
    [initStaggeredAnimations] conceals it again, replaces the transform
    and the transition that [initScrollAnimations] gave it, and observes
    it with the card observer. *)
Theorem staggered_setup_overrides_scroll_setup {E} (doc : document E)
    (env : host) (elems : gmap nat element) (cards : list nat)
    (card : nat) (e0 : element) :
  has_IntersectionObserver env = true ->
  querySelectorAll doc card_selector = Normal cards ->
  card ∈ cards ->
  elems !! card = Some e0 ->
  "animated" ∉ classList e0 ->
  let p1 := (initScrollAnimations doc env (page0 elems)).2 in
  let p2 := (initStaggeredAnimations doc env p1).2 in
  card ∈ watching p2 /\
  exists e2, elements p2 !! card = Some e2 /\ stagger_styled e2.
Proof.
  intros He Hq Hin Hcard Hcl p1 p2.
  pose proof (initScrollAnimations_keeps_classes doc env elems card) as Hkeep.
  fold p1 in Hkeep. rewrite Hcard in Hkeep. cbn in Hkeep.
  destruct (elements p1 !! card) as [e1 |] eqn:He1; [| done].
  injection Hkeep as Hkeep.
  destruct (prepare_cards_effect cards card
              (with_observer (Some (Observer (3 # 10) "0px 0px 0px 0px" [])) p1))
    as (p' & Heq & Hw & Hst & Hsome).
  - by eexists.
  - unfold classes_of. cbn. rewrite He1. cbn. by rewrite Hkeep.
  - by left.
  - assert (p2 = p') as ->.
    { unfold p2, initStaggeredAnimations. rewrite He. cbn [negb].
      unfold bind at 1, new_IntersectionObserver at 1. cbn [fst snd].
      unfold bind at 1, safeQuerySelectorAll, try_catch, host_query.
      rewrite Hq. by rewrite Heq. }
    split; [exact Hw |].
    destruct (proj2 Hsome) as [e2 He2]; [cbn; by rewrite He1 |].
    exists e2. split; [done | by apply Hst].
Qed.

Lemma staggered_setup_overrides_scroll_setup_sample :
  let p1 := (initScrollAnimations two_cards browser (page0 bare_cards)).2 in
  let p2 := (initStaggeredAnimations two_cards browser p1).2 in
  1 ∈ watching p2 /\
  exists e2, elements p2 !! 1 = Some e2 /\ stagger_styled e2.
Proof.
  apply (staggered_setup_overrides_scroll_setup two_cards browser bare_cards
           [1; 2] 1 (Element ∅ [])).
  - reflexivity.
  - reflexivity.
  - apply (bool_decide_unpack _). by vm_compute.
  - by vm_compute.
  - apply (bool_decide_unpack _). by vm_compute.
Defined.

(** ** The two animations on one page *)

Section SceneFacts.
Context {E : Type}.
Implicit Types (p q : page E) (s : stage E) (c : scene E).

Lemma with_observer_back p o :
  with_observer (observer p) (with_observer o p) = p.
Proof. by destruct p. Qed.

Lemma state_transfer p q el :
  observer q = observer p -> revealed q = revealed p ->
  elements q !! el = elements p !! el ->
  hidden p el \/ shown p el -> hidden q el \/ shown q el.
Proof.
  intros Ho Hr He. unfold hidden, shown, watching, opacity_of, classes_of.
  by rewrite Ho, Hr, He.
Qed.

Lemma stage_notify_effect t fr s :
  let s' := stage_notify t fr s in
  elements (st_page s') = elements (st_page s) /\
  revealed (st_page s') = revealed (st_page s) /\
  (forall x, x ∈ watching (st_page s') -> x ∈ watching (st_page s)) /\
  (forall x, x ∈ callback <$> pending (st_clk s') ->
             x ∈ callback <$> pending (st_clk s) \/ x ∈ watching (st_page s)).
Proof.
  unfold stage_notify.
  destruct (observer (st_page s)) as [o |] eqn:Ho; [| cbn; by eauto].
  destruct (take_entries fr o) as [| e es] eqn:Hes; [cbn; by eauto |].
  cbv beta zeta iota. rewrite <- Hes.
  destruct (stagger_entries_effect (take_entries fr o) 0
              (Stage (st_page s) (set_now t (st_clk s)) (st_shown s)))
    as (s' & Heq & _ & _ & Hp & Hw & Hr & Hel).
  unfold stage_runs, card_callback. rewrite Heq.
  cbn [st_page st_clk set_now pending] in Hp, Hw, Hr, Hel.
  split_and!; [done | done | |].
  - intros x. rewrite Hw. by intros [_ ?]%list_elem_of_filter.
  - intros x. rewrite Hp, fmap_app, armed_list_callbacks, schedule_cards,
      take_entries_hits.
    intros [? | [_ Hx]%list_elem_of_filter]%elem_of_app; [by left | right].
    unfold watching. by rewrite Ho.
Qed.

Lemma reveal_card_elsewhere el x s :
  x ≠ el ->
  exists s', reveal_card el s = (Normal tt, s') /\
    elements (st_page s') !! x = elements (st_page s) !! x /\
    observer (st_page s') = observer (st_page s) /\
    revealed (st_page s') = revealed (st_page s) /\
    st_clk s' = st_clk s.
Proof.
  intros Hne. eexists. split; [reflexivity |]. cbn.
  by rewrite !lookup_alter_ne.
Qed.

Lemma stage_fire_effect s s' el :
  stage_fire s = Some s' ->
  el ∉ callback <$> pending (st_clk s) ->
  elements (st_page s') !! el = elements (st_page s) !! el /\
  observer (st_page s') = observer (st_page s) /\
  revealed (st_page s') = revealed (st_page s) /\
  (el ∉ callback <$> pending (st_clk s')).
Proof.
  unfold stage_fire, take_due.
  destruct (earliest (pending (st_clk s))) as [u |] eqn:Hu; [| done].
  cbn [eligible]. intros [= <-] Hnot. apply earliest_in in Hu.
  assert (el ≠ callback u) as Hne.
  { intros ->. apply Hnot, list_elem_of_fmap. eauto. }
  destruct (reveal_card_elsewhere (callback u) el
              (Stage (st_page s)
                 (Clock (now (st_clk s) `max` due u) (next_id (st_clk s))
                        (filter (fun v => tid v ≠ tid u) (pending (st_clk s))))
                 (st_shown s)))
    as (s1 & Heq & He & Ho & Hr & Hc); [done |].
  unfold stage_runs. rewrite Heq, He, Ho, Hr, Hc. cbn.
  split_and!; try done.
  intros (v & -> & Hv)%list_elem_of_fmap.
  apply list_elem_of_filter in Hv as [_ Hv].
  apply Hnot, list_elem_of_fmap. eauto.
Qed.

Lemma scene_step_keeps c ev el :
  (hidden (scroll_view c) el \/ shown (scroll_view c) el) /\
  (el ∉ watching (st_page (sc_stage c))) /\
  (el ∉ callback <$> pending (st_clk (sc_stage c))) ->
  let c' := scene_step c ev in
  (hidden (scroll_view c') el \/ shown (scroll_view c') el) /\
  (el ∉ watching (st_page (sc_stage c'))) /\
  (el ∉ callback <$> pending (st_clk (sc_stage c'))).
Proof.
  intros (Hst & Hw & Hp). destruct ev as [fr | [t fr |]]; cbn [scene_step stage_step].
  - cbn zeta. unfold scroll_view at 1. cbn [sc_stage sc_scroll st_page st_clk].
    rewrite with_observer_back. split_and!; [| done | done].
    by apply notify_keeps_state.
  - cbn zeta. cbn [sc_stage sc_scroll].
    destruct (stage_notify_effect t fr (sc_stage c)) as (Hel & Hr & Hsub & Hnew).
    split_and!.
    + apply (state_transfer (scroll_view c)); [done | | | done].
      * unfold scroll_view. cbn. exact Hr.
      * unfold scroll_view. cbn. by rewrite Hel.
    + intros Hin. by apply Hw, Hsub.
    + intros Hin. by destruct (Hnew _ Hin).
  - cbn zeta. cbn [sc_stage sc_scroll].
    destruct (stage_fire (sc_stage c)) as [s' |] eqn:Hf; [| done].
    destruct (stage_fire_effect _ _ el Hf Hp) as (Hel & Ho & Hr & Hnew).
    cbn [default from_option id sc_stage sc_scroll]. split_and!; [| | done].
    + apply (state_transfer (scroll_view c)); [done | | | done].
      * unfold scroll_view. cbn. exact Hr.
      * unfold scroll_view. cbn. exact Hel.
    + unfold watching in *. by rewrite Ho.
Qed.

Lemma scene_steps_keep events el : forall c,
  (hidden (scroll_view c) el \/ shown (scroll_view c) el) /\
  (el ∉ watching (st_page (sc_stage c))) /\
  (el ∉ callback <$> pending (st_clk (sc_stage c))) ->
  let c' := foldl scene_step c events in
  hidden (scroll_view c') el \/ shown (scroll_view c') el.
Proof.
  induction events as [| ev events IH]; intros c Hc; [by destruct Hc |].
  cbn [foldl]. by apply IH, scene_step_keeps.
Qed.

Lemma prepare_cards_elsewhere (cards : list nat) (el : nat) : forall p,
  el ∉ cards ->
  exists p', forEach cards prepare_card p = (Normal tt, p') /\
    elements p' !! el = elements p !! el /\
    revealed p' = revealed p /\
    (el ∈ watching p' -> el ∈ watching p).
Proof.
  induction cards as [| card cards IH]; intros p Hnot.
  { by exists p. }
  apply not_elem_of_cons in Hnot as [Hne Hnot].
  rewrite forEach_cons, prepare_card_exact. cbv beta iota.
  set (q := if bool_decide _ then p else _).
  assert (elements q !! el = elements p !! el /\ revealed q = revealed p /\
          (el ∈ watching q -> el ∈ watching p)) as (Hqe & Hqr & Hqw).
  { unfold q. case_bool_decide; [done |]. cbn.
    rewrite lookup_alter_ne by done. split_and!; try done.
    unfold watching. cbn. destruct (observer p) as [o |]; [| done]. cbn.
    case_decide; [done |].
    by intros [? | ->%list_elem_of_singleton]%elem_of_app. }
  destruct (IH q Hnot) as (p' & Heq & He & Hr & Hw).
  exists p'. rewrite Heq.
  split_and!; [done | by rewrite He | by rewrite Hr | auto].
Qed.

Lemma initStaggeredAnimations_elsewhere (doc : document E) env p el :
  el ∉ selected_cards doc ->
  let p' := (initStaggeredAnimations doc env (with_observer None p)).2 in
  elements p' !! el = elements p !! el /\ revealed p' = revealed p /\
  (el ∉ watching p').
Proof.
  intros Hnot. cbn zeta.
  destruct (initStaggeredAnimations doc env (with_observer None p))
    as [r p'] eqn:Hrun.
  cbn [snd]. unfold initStaggeredAnimations in Hrun.
  destruct (has_IntersectionObserver env); cbn [negb] in Hrun.
  2: { injection Hrun as _ <-. cbn. split_and!; try done. apply not_elem_of_nil. }
  unfold bind at 1, new_IntersectionObserver at 1 in Hrun. cbn [fst snd] in Hrun.
  unfold bind at 1, safeQuerySelectorAll, try_catch, host_query in Hrun.
  unfold selected_cards in Hnot.
  destruct (querySelectorAll doc card_selector) as [cards | x].
  - destruct (prepare_cards_elsewhere cards el
                (with_observer (Some (Observer (3 # 10) "0px 0px 0px 0px" []))
                               (with_observer None p)) Hnot)
      as (p1 & Heq & He & Hr & Hw).
    rewrite Heq in Hrun. injection Hrun as _ <-.
    split_and!; [exact He | exact Hr |].
    intros Hin. apply Hw in Hin. by apply elem_of_nil in Hin.
  - cbn in Hrun. injection Hrun as _ <-. cbn.
    split_and!; try done.
Qed.

Lemma initScrollAnimations_hides (doc : document E) env
      (elems : gmap nat element) (els : list nat) (el : nat) :
  has_IntersectionObserver env = true ->
  querySelectorAll doc animated_selector = Normal els ->
  el ∈ els ->
  hidden (initScrollAnimations doc env (page0 elems)).2 el.
Proof.
  intros He Hq Hel.
  rewrite initScrollAnimations_observing by done. cbn zeta. rewrite Hq.
  destruct (setup_effect (E := E) els
              (with_observer (Some (Observer (1 # 10) "0px 0px -50px 0px" []))
                             (page0 elems)))
    as (p' & Heq & Hr & _ & Hw & Hels); [by eexists |].
  rewrite Heq. cbn [snd]. split_and!.
  - apply Hw. by right.
  - rewrite Hr. simpl. by apply not_elem_of_nil.
  - apply opacity_good. intros e' He'.
    destruct (foldl_alter_good concealed
                (fun e => style e !! "opacity" = Some "0") el)
      with (ks := els) (m := elements (with_observer (E := E)
              (Some (Observer (1 # 10) "0px 0px -50px 0px" [])) (page0 elems)))
      as [Hgood _].
    { intros e. simpl. do 2 rewrite lookup_insert_ne by done.
      by rewrite lookup_insert_eq. }
    { by left. }
    apply Hgood. by rewrite <- Hels.
Qed.
End SceneFacts.

(** X14. In a host with [IntersectionObserver], after [init] has set up
    both animations, an element that the selector of
    [initScrollAnimations] matches and the selector of
    [initStaggeredAnimations] does not is, whatever the notifications of
    the two observers and the timers of the cards that follow, in one of
    two states: still watched by the scroll observer, not yet revealed,
    with inline opacity 0; or revealed, no longer watched, with inline
    opacity 1 and the class [animated]. Such an element stays invisible
    until it reaches the threshold of the scroll observer. *)
Theorem animated_elements_are_hidden_or_shown {E} (doc : document E) (env : host)
    (elems : gmap nat element) (els : list nat) (events : list scene_event)
    (el : nat) :
  has_IntersectionObserver env = true ->
  querySelectorAll doc animated_selector = Normal els ->
  el ∈ els ->
  el ∉ selected_cards doc ->
  let p := scroll_view (foldl scene_step (both_set_up doc env elems) events) in
  hidden p el \/ shown p el.
Proof.
  intros He Hq Hel Hnot. apply scene_steps_keep.
  destruct (initStaggeredAnimations_elsewhere doc env
              (initScrollAnimations doc env (page0 elems)).2 el Hnot)
    as (Hels & Hr & Hw).
  unfold both_set_up. cbn zeta. cbn [sc_stage st_page st_clk]. split_and!.
  - apply (state_transfer (initScrollAnimations doc env (page0 elems)).2);
      [done | exact Hr | exact Hels |].
    left. by apply (initScrollAnimations_hides doc env elems els).
  - exact Hw.
  - cbn. apply not_elem_of_nil.
Qed.

Lemma animated_elements_are_hidden_or_shown_sample :
  let p := scroll_view
             (foldl scene_step (both_set_up cards_and_text browser bare_page)
                [ScrollNotified (all_show (1 # 20));
                 CardEvent (Notified 1000 (all_show (1 # 2)));
                 CardEvent TimerRuns;
                 ScrollNotified (all_show (1 # 2))]) in
  hidden p 3 \/ shown p 3.
Proof.
  apply (animated_elements_are_hidden_or_shown cards_and_text browser bare_page
           [1; 2; 3] _ 3).
  - reflexivity.
  - reflexivity.
  - apply (bool_decide_unpack _). by vm_compute.
  - apply (bool_decide_unpack _). by vm_compute.
Defined.

(** A card is not in that case: the timer of the card observer gives it
    opacity 1 while the scroll observer still watches it and has not
    revealed it. *)
Example card_shows_while_watched :
  let p := scroll_view
             (foldl scene_step (both_set_up cards_and_text browser bare_page)
                [CardEvent (Notified 1000 (all_show (1 # 2)));
                 CardEvent TimerRuns]) in
  opacity_of p 1 = Some "1" /\ 1 ∈ watching p /\ (1 ∉ revealed p).
Proof.
  split_and!.
  - by vm_compute.
  - apply (bool_decide_unpack _). by vm_compute.
  - apply (bool_decide_unpack _). by vm_compute.
Qed.
